(** * Energy objective and flower-pollination search of [Optimization_oran_fpa.py]

    A shallow embedding of the two functions of the script,
    [calculate_energy_total] and [flower_pollination_algorithm], and the
    properties of its specification that can be settled on them.

    Modelling conventions.
    - Python and numpy floating-point numbers are exact rationals ([Q]);
      rounding, infinities and NaN are outside the model, and so is the
      division by a zero capacity (numpy yields inf/nan there, [Qdiv] yields
      0).  The literal [0.8] is the rational 8/10.
    - numpy arrays are immutable values inside the evaluator; inside the
      optimizer every array lives in a heap and is reached through a
      reference, because [best_solution] aliases a slot of [population].
    - The ambient generator of the [random] module is a tape of rationals
      read through a cursor; every draw advances the cursor.
    - [print] appends to a log of lines, [plt.plot] appends the plotted
      series to a log of figures; styling calls of matplotlib are dropped. *)

From Stdlib Require Import QArith Qround Qminmax Lia Lqa ZArith List.
From stdpp Require Import base list.
Import ListNotations.

Set Default Proof Using "Type".

(** ** Exceptions and results *)

(** The exceptions of the script.  [DanglingRef] is the fault of reading a
    reference that was never allocated; Python cannot raise it, and no run
    of the optimizer does (see [failure] below). *)
Inductive exn := ValueError | IndexError | DanglingRef.

Inductive result (A : Type) :=
| Ok (a : A)
| Raise (e : exn).
Arguments Ok {A} a.
Arguments Raise {A} e.

#[global] Instance result_ret : MRet result := fun A a => Ok a.
#[global] Instance result_bind : MBind result := fun A B f m =>
  match m with Ok a => f a | Raise e => Raise e end.

Definition of_option {A} (e : exn) (o : option A) : result A :=
  match o with Some a => Ok a | None => Raise e end.

(** [for_each f l] runs [f] on the items of [l] from left to right and
    collects the results; the first exception aborts the traversal. *)
Fixpoint for_each {A B} (f : A -> result B) (l : list A) : result (list B) :=
  match l with
  | [] => Ok []
  | x :: r => y ← f x; ys ← for_each f r; Ok (y :: ys)
  end.

(** ** Rational helpers *)

Definition Qltb (x y : Q) : bool :=
  match (x ?= y)%Q with Lt => true | _ => false end.

(** A Python [bool] used as a number. *)
Definition indicator (b : bool) : Q := if b then 1%Q else 0%Q.

(** ** numpy arrays of one and two dimensions *)

Inductive ndarray :=
| Arr1 (v : list Q)
| Arr2 (rows : list (list Q)).

(** [a.shape[0]]. *)
Definition shape0 (a : ndarray) : nat :=
  match a with Arr1 v => length v | Arr2 rows => length rows end.

(** [a.shape[1]]: the shape tuple of a one-dimensional array has a single
    entry, so index 1 is out of range.  The rows of a two-dimensional array
    have one common length; it is read off the first row. *)
Definition shape1 (a : ndarray) : result nat :=
  match a with
  | Arr1 _ => Raise IndexError
  | Arr2 rows => Ok (length (hd [] rows))
  end.

(** [v[:, np.newaxis]]. *)
Definition as_column (v : list Q) : list (list Q) := map (fun x => [x]) v.

(** [l[:-1]] and [l[1:]]. *)
Definition but_last {A} (l : list A) : list A := take (length l - 1) l.
Definition from_1 {A} (l : list A) : list A := drop 1 l.

(** Element-wise binary operation on two one-dimensional operands under
    numpy's broadcasting rule: equal lengths, or one operand of length 1
    that is stretched; anything else is a ValueError. *)
Definition broadcast2 (f : Q -> Q -> Q) (a b : list Q) : result (list Q) :=
  if Nat.eqb (length a) (length b) then Ok (zip_with f a b)
  else match a, b with
       | [x], _ => Ok (map (f x) b)
       | _, [y] => Ok (map (fun x => f x y) a)
       | _, _ => Raise ValueError
       end.

(** Same, row by row, for two-dimensional operands of equal row count. *)
Fixpoint broadcast_rows (f : Q -> Q -> Q) (X Y : list (list Q))
  : result (list (list Q)) :=
  match X, Y with
  | x :: X', y :: Y' =>
      r ← broadcast2 f x y; R ← broadcast_rows f X' Y'; Ok (r :: R)
  | _, _ => Ok []
  end.

(** [np.sum] of a one- and of a two-dimensional array. *)
Definition np_sum (v : list Q) : Q := fold_right Qplus 0%Q v.
Definition np_sum2 (m : list (list Q)) : Q := np_sum (concat m).

(** [np.sum((1 - M[:-1]) * M[1:] * w)] for a one-dimensional [w]. *)
Definition transition_sum (M : ndarray) (w : list Q) : result Q :=
  match M with
  | Arr1 v =>
      x ← broadcast2 Qmult (map (fun a => 1 - a)%Q (but_last v)) (from_1 v);
      y ← broadcast2 Qmult x w;
      Ok (np_sum y)
  | Arr2 rows =>
      X ← broadcast_rows Qmult
            (map (map (fun a => 1 - a)%Q) (but_last rows)) (from_1 rows);
      Y ← for_each (fun r => broadcast2 Qmult r w) X;
      Ok (np_sum2 Y)
  end.

(** ** The objective: [calculate_energy_total] *)

Section Energy.
Variables (L_epm L_cpm : list Q).
Variables (P_epm P_prime_epm C_epm P_cpm P_prime_cpm C_cpm : Q).
Variables (V_du V_cu : list Q).
Variables (alpha beta T : Q).

(** Lines 34-36: a flat candidate becomes a column. *)
Definition normalize (A_t : ndarray) : ndarray :=
  match A_t with Arr1 v => Arr2 (as_column v) | Arr2 _ => A_t end.

(** Lines 39-41 and 44-46. *)
Definition E_processing_epm : Q :=
  (np_sum (map (fun l => indicator (Qltb 0 l) * P_epm
                         + P_prime_epm * (l / C_epm)) L_epm) * T)%Q.

Definition E_processing_cpm : Q :=
  (np_sum (map (fun l => indicator (Qltb 0 l) * P_cpm
                         + P_prime_cpm * (l / C_cpm)) L_cpm) * T)%Q.

(** Lines 49-52. *)
Definition migration_epm (A_t : ndarray) : result Q :=
  let A_t := normalize A_t in
  if (1 <? shape0 A_t)%nat
  then transition_sum A_t (map (fun v => alpha * v + beta)%Q V_du)
  else Ok 0%Q.

(** Lines 55-58. *)
Definition migration_cpm (B_t : ndarray) : result Q :=
  if (1 <? shape0 B_t)%nat
  then c ← shape1 B_t;
       transition_sum B_t (map (fun v => alpha * v + beta)%Q (take c V_cu))
  else Ok 0%Q.

Definition calculate_energy_total (A_t B_t S_t : ndarray) : result Q :=
  E_migration_epm ← migration_epm A_t;
  E_migration_cpm ← migration_cpm B_t;
  Ok (E_processing_epm + E_processing_cpm
      + E_migration_epm + E_migration_cpm)%Q.
End Energy.

(** ** The optimizer's world: heap, random tape, output logs *)

Definition loc := nat.
Definition tape := nat -> Q.

Record world := World {
  heap : list (list Q);        (* the arrays allocated so far *)
  cursor : nat;                (* number of draws taken from the tape *)
  stdout : list (nat * Q);     (* printed lines: generation, best fitness *)
  figures : list (list Q)      (* series handed to [plt.plot] *)
}.

(** Computations read the tape, thread the world and may raise; the world
    reached when an exception is raised is kept, as in Python. *)
Definition M (A : Type) : Type := tape -> world -> result A * world.

#[global] Instance M_ret : MRet M := fun A a _ w => (Ok a, w).
#[global] Instance M_bind : MBind M := fun A B f m t w =>
  match m t w with
  | (Ok a, w') => f a t w'
  | (Raise e, w') => (Raise e, w')
  end.

Definition lift {A} (r : result A) : M A := fun _ w => (r, w).

(** *** Heap: allocation and reading; there is no write *)

Definition alloc (a : list Q) : M loc := fun _ w =>
  (Ok (length (heap w)),
   World (heap w ++ [a]) (cursor w) (stdout w) (figures w)).

Definition deref (l : loc) : M (list Q) := fun _ w =>
  (of_option DanglingRef (heap w !! l), w).

(** *** The [random] module *)

Definition random_random : M Q := fun t w =>
  (Ok (t (cursor w)), World (heap w) (S (cursor w)) (stdout w) (figures w)).

(** [random.uniform(a, b)] is [a + (b - a) * random()]. *)
Definition random_uniform (a b : Q) : M Q :=
  u ← random_random; mret (a + (b - a) * u)%Q.

(** [random.gauss(mu, sigma)] is [mu + z * sigma] for a normal deviate [z],
    which is the next value of the tape. *)
Definition random_gauss (mu sigma : Q) : M Q :=
  z ← random_random; mret (mu + z * sigma)%Q.

(** An index below [n] from the next value [u] of the tape: [int(u * n)],
    kept in range for values of the tape that are not in [0, 1). *)
Definition randbelow (n : nat) : M nat :=
  u ← random_random;
  mret (Z.to_nat (Qfloor (u * inject_Z (Z.of_nat n))) mod n)%nat.

(** [random.sample(population, 2)]: a ValueError when the population has
    fewer than two items; otherwise the first pick is [pool[j]], the picked
    slot is refilled with the last item of the pool and the second pick is
    taken among the first [n - 1] slots (the scheme of the library for
    small populations; the properties below only use that the picks are two
    items of the population). *)
Definition random_sample2 (pool : list nat) : M (nat * nat) :=
  let n := length pool in
  if (n <? 2)%nat then lift (Raise ValueError)
  else
    j ← randbelow n;
    first ← lift (of_option IndexError (pool !! j));
    let pool := <[j := default 0%nat (last pool)]> pool in
    k ← randbelow (n - 1);
    second ← lift (of_option IndexError (pool !! k));
    mret (first, second).

(** *** Output *)

Definition print (line : nat * Q) : M unit := fun _ w =>
  (Ok tt, World (heap w) (cursor w) (stdout w ++ [line]) (figures w)).

Definition plt_plot (series : list Q) : M unit := fun _ w =>
  (Ok tt, World (heap w) (cursor w) (stdout w) (figures w ++ [series])).

(** *** Python lists of references, loops *)

Definition getitem {A} (l : list A) (i : nat) : M A :=
  lift (of_option IndexError (l !! i)).

Definition setitem {A} (l : list A) (i : nat) (x : A) : M (list A) :=
  if (i <? length l)%nat then mret (<[i := x]> l)
  else lift (Raise IndexError).

Definition py_range (n : Z) : list nat := seq 0 (Z.to_nat n).

(** [[f(x) for x in l]]. *)
Fixpoint comprehension {A B} (f : A -> M B) (l : list A) : M (list B) :=
  match l with
  | [] => mret []
  | x :: r => y ← f x; ys ← comprehension f r; mret (y :: ys)
  end.

(** [for x in l: s = body(s, x)]. *)
Fixpoint for_loop {S A} (body : S -> A -> M S) (s : S) (l : list A) : M S :=
  match l with
  | [] => mret s
  | x :: r => s' ← body s x; for_loop body s' r
  end.

(** *** numpy operations on heap arrays; each result is a fresh array *)

Definition np_array (v : list Q) : M loc := alloc v.

Definition np_binop (f : Q -> Q -> Q) (x y : loc) : M loc :=
  a ← deref x; b ← deref y; c ← lift (broadcast2 f a b); alloc c.

Definition np_sub := np_binop Qminus.
Definition np_add := np_binop Qplus.

(** A Python float times an array. *)
Definition np_scale (s : Q) (x : loc) : M loc :=
  a ← deref x; alloc (map (Qmult s) a).

(** [np.clip(a, a_min, a_max)] is [minimum(maximum(a, a_min), a_max)]. *)
Definition np_clip (x : loc) (a_min a_max : list Q) : M loc :=
  a ← deref x;
  lo ← lift (broadcast2 Qmax a a_min);
  c ← lift (broadcast2 Qmin lo a_max);
  alloc c.

Definition np_zeros (r c : nat) : ndarray := Arr2 (repeat (repeat 0%Q c) r).
Definition np_ones (r c : nat) : ndarray := Arr2 (repeat (repeat 1%Q c) r).

(** The built-in [min] keeps the first smallest item; [np.argmin] returns
    the index of the first occurrence of the minimum.  Both raise a
    ValueError on an empty sequence. *)
Fixpoint min_from (bv : Q) (l : list Q) : Q :=
  match l with
  | [] => bv
  | y :: r => min_from (if Qltb y bv then y else bv) r
  end.

Fixpoint argmin_from (bi i : nat) (bv : Q) (l : list Q) : nat :=
  match l with
  | [] => bi
  | y :: r => if Qltb y bv then argmin_from i (S i) y r
              else argmin_from bi (S i) bv r
  end.

Definition py_min (l : list Q) : result Q :=
  match l with [] => Raise ValueError | x :: r => Ok (min_from x r) end.

Definition np_argmin (l : list Q) : result nat :=
  match l with [] => Raise ValueError | x :: r => Ok (argmin_from 0 1 x r) end.

(** Values a Python function returns here; a returned tuple is the list
    of its items. *)
Inductive pyval :=
| VFloat (q : Q)
| VRef (l : loc)
| VList (l : list Q).

(** ** The search: [flower_pollination_algorithm] *)

(** The variables of the generation loop. *)
Record locals := Locals {
  population : list loc;
  best_solution : loc;
  best_fitness : Q;
  convergence : list Q
}.

Section FPA.
Variables (max_generations population_size : Z).
Variable bounds : list (Q * Q).
Variables (L_epm L_cpm : list Q).
Variables (P_epm P_prime_epm C_epm P_cpm P_prime_cpm C_cpm : Q).
Variables (V_du V_cu : list Q).
Variables (alpha beta T : Q).

(** Line 84: one individual, then the whole population. *)
Definition init_individual : M loc :=
  xs ← comprehension (fun b => random_uniform (fst b) (snd b)) bounds;
  np_array xs.

Definition init_population : M (list loc) :=
  comprehension (fun _ => init_individual) (py_range population_size).

(** Lines 90-94 and 117-121: the fitness of every individual. *)
Definition evaluate (B_t S_t : ndarray) (A_t : loc) : M Q :=
  a ← deref A_t;
  lift (calculate_energy_total L_epm L_cpm P_epm P_prime_epm C_epm
          P_cpm P_prime_cpm C_cpm V_du V_cu alpha beta T
          (Arr1 a) B_t S_t).

Definition evaluate_all (B_t S_t : ndarray) (population : list loc)
  : M (list Q) :=
  comprehension (evaluate B_t S_t) population.

(** Lines 104-115: the body of the loop over the individuals. *)
Definition pollinate (best_solution : loc) (population : list loc)
  (i : nat) : M (list loc) :=
  u ← random_random;
  population ←
    (if Qltb u (8 # 10) then
       L ← random_gauss 0 1;
       p_i ← getitem population i;
       d ← np_sub p_i best_solution;
       step ← np_scale L d;
       p_i ← getitem population i;
       moved ← np_add p_i step;
       setitem population i moved
     else
       epsilon ← random_random;
       '(j, k) ← random_sample2 (py_range population_size);
       p_j ← getitem population j;
       p_k ← getitem population k;
       d ← np_sub p_j p_k;
       step ← np_scale epsilon d;
       p_i ← getitem population i;
       moved ← np_add p_i step;
       setitem population i moved);
  p_i ← getitem population i;
  clipped ← np_clip p_i (map fst bounds) (map snd bounds);
  setitem population i clipped.

(** Lines 123-126. *)
Definition update_best (st : locals) (population : list loc)
  (fitness : list Q) : M (Q * loc) :=
  current_best ← lift (py_min fitness);
  if Qltb current_best (best_fitness st) then
    i ← lift (np_argmin fitness);
    b ← getitem population i;
    mret (current_best, b)
  else mret (best_fitness st, best_solution st).

(** Lines 103-129: one generation. *)
Definition generation_step (B_t S_t : ndarray) (st : locals)
  (generation : nat) : M locals :=
  population ← for_loop (pollinate (best_solution st)) (population st)
                 (py_range population_size);
  fitness ← evaluate_all B_t S_t population;
  '(best_fitness, best_solution) ← update_best st population fitness;
  let convergence := convergence st ++ [best_fitness] in
  print (generation + 1, best_fitness)%nat;;
  mret (Locals population best_solution best_fitness convergence).

(** Lines 84-100: the state before the first generation. *)
Definition initial_state : M (ndarray * ndarray * locals) :=
  population ← init_population;
  p0 ← getitem population 0;
  a0 ← deref p0;
  let B_t := np_zeros (length a0) 1 in
  let S_t := np_ones (length a0) 1 in
  fitness ← evaluate_all B_t S_t population;
  i ← lift (np_argmin fitness);
  best_solution ← getitem population i;
  best_fitness ← lift (py_min fitness);
  mret (B_t, S_t, Locals population best_solution best_fitness [best_fitness]).

(** Lines 84-129: the variables when the generation loop is left. *)
Definition search : M (ndarray * ndarray * locals) :=
  '(B_t, S_t, st) ← initial_state;
  st ← for_loop (generation_step B_t S_t) st (py_range max_generations);
  mret (B_t, S_t, st).

Definition flower_pollination_algorithm : M (list pyval) :=
  '(_, _, st) ← search;
  plt_plot (convergence st);;
  mret [VRef (best_solution st); VFloat (best_fitness st)].
End FPA.

(** The energy of a flat candidate in the context the optimizer fixes for
    the whole run (lines 87-88). *)
Definition run_energy (bounds : list (Q * Q)) (L_epm L_cpm : list Q)
  (P_epm P_prime_epm C_epm P_cpm P_prime_cpm C_cpm : Q) (V_du V_cu : list Q)
  (alpha beta T : Q) (a : list Q) : result Q :=
  calculate_energy_total L_epm L_cpm P_epm P_prime_epm C_epm
    P_cpm P_prime_cpm C_cpm V_du V_cu alpha beta T (Arr1 a)
    (np_zeros (length bounds) 1) (np_ones (length bounds) 1).

(** ** Properties stated by the specification, as predicates *)

(** Every pair of [bounds] is a non-empty interval. *)
Definition bounds_valid (bounds : list (Q * Q)) : Prop :=
  Forall (fun b => (fst b <= snd b)%Q) bounds.

(** Every dimension of [a] lies in its interval of [bounds]. *)
Definition within_bounds (bounds : list (Q * Q)) (a : list Q) : Prop :=
  length a = length bounds /\
  forall d lo hi v, bounds !! d = Some (lo, hi) -> a !! d = Some v ->
    (lo <= v <= hi)%Q.

(** The projection of a value on an interval, in the words of the
    specification: a value below the interval goes to its lower end, a value
    above it to its upper end, any other value stays. *)
Definition nearest (b : Q * Q) (x : Q) : Q :=
  if Qltb x (fst b) then fst b else if Qltb (snd b) x then snd b else x.

(** A sequence that never grows from one entry to the next. *)
Definition nonincreasing (l : list Q) : Prop :=
  forall i x y, l !! i = Some x -> l !! S i = Some y -> (y <= x)%Q.

(** From one entry to the next the sequence is left as it is or goes
    strictly down. *)
Definition descending (l : list Q) : Prop :=
  forall i x y, l !! i = Some x -> l !! S i = Some y -> y = x \/ (y < x)%Q.

(** [l] refers to the projection on [bounds] of some proposal: every
    dimension is the nearest point of its interval, hence inside it. *)
Definition projected (bounds : list (Q * Q)) (w : world) (l : loc) : Prop :=
  exists proposal a,
    heap w !! l = Some a /\ length proposal = length bounds /\
    within_bounds bounds a /\
    forall d b p, bounds !! d = Some b -> proposal !! d = Some p ->
      a !! d = Some (nearest b p).

(** All rows have a single column. *)
Definition column (rows : list (list Q)) : Prop :=
  Forall (fun r => length r = 1%nat) rows.

(** A property of every entry of an array. *)
Definition all_entries (P : Q -> Prop) (M : ndarray) : Prop :=
  match M with
  | Arr1 v => Forall P v
  | Arr2 rows => Forall (Forall P) rows
  end.

(** Two tapes that agree on the first [k] draws. *)
Definition agree_upto (k : nat) (t1 t2 : tape) : Prop :=
  forall n, (n < k)%nat -> t1 n = t2 n.

(** ** The scenario of the script (lines 144-159) *)

Definition script_bounds : list (Q * Q) := repeat (0, 1)%Q 4.

(** The evaluator and the optimizer on the workload of the script. *)
Abbreviation script_energy :=
  (calculate_energy_total [50; 60]%Q [70; 80]%Q 200 50 100 300 60 120
     [5; 10]%Q [15; 20]%Q (1 # 2) 10 1).

Abbreviation script_search max_generations population_size bounds :=
  (flower_pollination_algorithm max_generations population_size bounds
     [50; 60]%Q [70; 80]%Q 200 50 100 300 60 120
     [5; 10]%Q [15; 20]%Q (1 # 2) 10 1).

(** A world with nothing allocated, drawn, printed or plotted, and two
    tapes that differ from the thirtieth draw on. *)
Definition fresh : world := World [] 0 [] [].

Definition tape_a : tape := fun k => (Z.of_nat (k * 7 mod 10) # 10)%Q.
Definition tape_b : tape := fun k => if (k <? 30)%nat then tape_a k else 5%Q.

(** An entry of an association structure: a number between 0 and 1. *)
Definition unit_interval (x : Q) : Prop := (0 <= x <= 1)%Q.
Definition nonneg (x : Q) : Prop := (0 <= x)%Q.

(** ** Reasoning about computations *)

(** [wp m t w Φ Ψ]: run from world [w] on tape [t], [m] either returns a
    value and a world that satisfy [Φ], or raises an exception that, with
    the world reached, satisfies [Ψ]. *)
Definition wp {A} (m : M A) (t : tape) (w : world)
  (Φ : A -> world -> Prop) (Ψ : exn -> world -> Prop) : Prop :=
  match m t w with
  | (Ok a, w') => Φ a w'
  | (Raise e, w') => Ψ e w'
  end.

(** [w'] is reached from [w] without output: the arrays of [w] are all
    still there, unchanged, and draws have only been consumed. *)
Definition extends (w w' : world) : Prop :=
  heap w `prefix_of` heap w' /\ (cursor w <= cursor w')%nat /\
  stdout w' = stdout w /\ figures w' = figures w.

(** [l] refers to an array of [n] entries. *)
Definition arr (n : nat) (w : world) (l : loc) : Prop :=
  exists a, heap w !! l = Some a /\ length a = n.

(** The array [np.clip] computes when no stretching is involved. *)
Definition clip_vec (x a_min a_max : list Q) : list Q :=
  zip_with Qmin (zip_with Qmax x a_min) a_max.

(** [l] refers to the clip of some proposal of the right dimension. *)
Definition clipped (bounds : list (Q * Q)) (w : world) (l : loc) : Prop :=
  exists x, length x = length bounds /\
    heap w !! l = Some (clip_vec x (map fst bounds) (map snd bounds)).

(** The exceptions a call of the optimizer can raise: indexing the empty
    population, and sampling two individuals out of one. *)
Definition failure (population_size : Z) (e : exn) : Prop :=
  (e = IndexError /\ (population_size <= 0)%Z) \/
  (e = ValueError /\ population_size = 1%Z).

(** [a] is the array at [l] and [e] is its energy. *)
Definition scored (eval : list Q -> result Q) (w : world) (l : loc) (e : Q)
  : Prop :=
  exists a, heap w !! l = Some a /\ eval a = Ok e.

(** What holds of the variables of the loop after [g] generations of a run
    started in world [w0]. *)
Definition invariant (population_size : Z) (bounds : list (Q * Q))
  (eval : list Q -> result Q) (w0 : world) (g : nat) (st : locals)
  (w : world) : Prop :=
  heap w0 `prefix_of` heap w /\ (cursor w0 <= cursor w)%nat /\
  figures w = figures w0 /\ (1 <= population_size)%Z /\
  length (population st) = Z.to_nat population_size /\
  Forall (arr (length bounds) w) (population st) /\
  arr (length bounds) w (best_solution st) /\
  scored eval w (best_solution st) (best_fitness st) /\
  (exists f0 lines, stdout w = stdout w0 ++ lines /\
     map fst lines = seq 1 g /\ convergence st = f0 :: map snd lines) /\
  last (convergence st) = Some (best_fitness st) /\
  descending (convergence st) /\
  ((0 < g)%nat -> Forall (clipped bounds w) (population st)).

(** A computation draws from the tape only at and after its cursor, never
    moves the cursor back, and its outcome is fixed by the draws it takes. *)
Definition local {A} (m : M A) : Prop :=
  forall t1 t2 w r w',
    m t1 w = (r, w') ->
    (cursor w <= cursor w')%nat /\
    (agree_upto (cursor w') t1 t2 -> m t2 w = (r, w')).

(** ** Further notions for the evaluator *)

(** The entries [(1 - v[t-1]) * v[t]] of a flat candidate, one per pair of
    consecutive rows. *)
Definition pair_terms (v : list Q) : list Q :=
  zip_with (fun a b => (1 - a) * b)%Q (but_last v) (from_1 v).

(** The weights [alpha * V + beta] every transition is multiplied with. *)
Definition weights (alpha beta : Q) (V : list Q) : list Q :=
  map (fun v => alpha * v + beta)%Q V.

(** An association indicator: 0 or 1. *)
Definition binary (x : Q) : Prop := (x == 0)%Q \/ (x == 1)%Q.

(** The number of rows at which a flat candidate goes from 0 to 1. *)
Fixpoint transitions (v : list Q) : nat :=
  match v with
  | a :: (b :: _) as r =>
      ((if Qeq_bool a 0 && Qeq_bool b 1 then 1 else 0) + transitions r)%nat
  | _ => 0%nat
  end.

(** A two-dimensional array of [c] columns. *)
Definition rectangular (c : nat) (rows : list (list Q)) : Prop :=
  Forall (fun r => length r = c) rows.

(** Lengths that numpy broadcasts against each other. *)
Definition compatible (c m : nat) : Prop := c = m \/ c = 1%nat \/ m = 1%nat.

(** ** Further notions for the search *)

(** No individual of the population has an energy below the best fitness. *)
Definition best_is_least (eval : list Q -> result Q) (st : locals)
  (w : world) : Prop :=
  forall l e, l ∈ population st -> scored eval w l e ->
    (best_fitness st <= e)%Q.

(** [l] refers to an array inside the bounds. *)
Definition within_at (bounds : list (Q * Q)) (w : world) (l : loc) : Prop :=
  exists a, heap w !! l = Some a /\ within_bounds bounds a.

(** The draws number [lo] to [hi - 1] of the tape are values of
    [random.random()]: they lie between 0 and 1. *)
Definition unit_draws (t : tape) (lo hi : nat) : Prop :=
  forall k, (lo <= k < hi)%nat -> (0 <= t k <= 1)%Q.



(** [x] is what lines 104-112 propose for individual [i] in the world [w]:
    [population[i] + step], where [step] is a multiple of
    [population[i] - best_solution] (line 107) or of the difference of two
    distinct individuals [population[j] - population[k]] (lines 110-112). *)
Definition proposal (best_solution : loc) (population : list loc) (i : nat)
  (w : world) (x : list Q) : Prop :=
  exists p_i y s p_a p_b a b,
    population !! i = Some p_i /\ heap w !! p_i = Some y /\
    (p_a = p_i /\ p_b = best_solution \/
     exists j k, j <> k /\
       population !! j = Some p_a /\ population !! k = Some p_b) /\
    heap w !! p_a = Some a /\ heap w !! p_b = Some b /\
    x = zip_with Qplus y (map (Qmult s) (zip_with Qminus a b)).

(** ** Rationals *)

Lemma Qltb_lt x y : Qltb x y = true <-> (x < y)%Q.
Proof.
  unfold Qltb. rewrite Qlt_alt. destruct (x ?= y)%Q; split; congruence.
Qed.

Lemma Qltb_ge x y : Qltb x y = false <-> (y <= x)%Q.
Proof.
  split; intros H.
  - apply Qnot_lt_le. intros H'. apply Qltb_lt in H'. congruence.
  - apply not_true_iff_false. intros H'. apply Qltb_lt in H'.
    exact (Qle_not_lt _ _ H H').
Qed.

Lemma Qmax_cases x y : (y <= x)%Q /\ Qmax x y = x \/ (x < y)%Q /\ Qmax x y = y.
Proof.
  unfold Qmax, GenericMinMax.gmax.
  destruct (x ?= y)%Q eqn:E.
  - left. split; [|reflexivity]. apply Qeq_alt in E. rewrite E. apply Qle_refl.
  - right. split; [|reflexivity]. apply Qlt_alt. exact E.
  - left. split; [|reflexivity]. apply Qlt_le_weak, Qgt_alt. exact E.
Qed.

Lemma Qmin_cases x y : (x <= y)%Q /\ Qmin x y = x \/ (y < x)%Q /\ Qmin x y = y.
Proof.
  unfold Qmin, GenericMinMax.gmin.
  destruct (x ?= y)%Q eqn:E.
  - left. split; [|reflexivity]. apply Qeq_alt in E. rewrite E. apply Qle_refl.
  - left. split; [|reflexivity]. apply Qlt_le_weak, Qlt_alt. exact E.
  - right. split; [|reflexivity]. apply Qgt_alt. exact E.
Qed.

(** One dimension of [np.clip] is the projection on the interval. *)
Lemma clip_nearest (b : Q * Q) (x : Q) :
  (fst b <= snd b)%Q -> Qmin (Qmax x (fst b)) (snd b) = nearest b x.
Proof.
  intros Hb. unfold nearest.
  destruct (Qmax_cases x (fst b)) as [[H1 ->]|[H1 ->]].
  - apply Qltb_ge in H1. rewrite H1.
    destruct (Qmin_cases x (snd b)) as [[H2 ->]|[H2 ->]].
    + apply Qltb_ge in H2. rewrite H2. reflexivity.
    + apply Qltb_lt in H2. rewrite H2. reflexivity.
  - destruct (Qmin_cases (fst b) (snd b)) as [[H2 ->]|[H2 ->]].
    + apply Qltb_lt in H1. rewrite H1. reflexivity.
    + exfalso. apply (Qlt_not_le _ _ H2). exact Hb.
Qed.

Lemma nearest_in (b : Q * Q) (x : Q) :
  (fst b <= snd b)%Q -> (fst b <= nearest b x <= snd b)%Q.
Proof.
  intros Hb. unfold nearest.
  destruct (Qltb x (fst b)) eqn:E1.
  - split; [apply Qle_refl | exact Hb].
  - destruct (Qltb (snd b) x) eqn:E2.
    + split; [exact Hb | apply Qle_refl].
    + apply Qltb_ge in E1, E2. split; assumption.
Qed.

(** ** Arrays: sums, broadcasting, transitions *)

Lemma np_sum_nonneg v : Forall (fun x => 0 <= x)%Q v -> (0 <= np_sum v)%Q.
Proof.
  induction 1 as [|x v Hx _ IH]; simpl.
  - apply Qle_refl.
  - apply (Qle_trans _ (0 + 0)%Q); [discriminate|].
    apply Qplus_le_compat; assumption.
Qed.

Lemma np_sum_zero v : Forall (fun x => x == 0)%Q v -> (np_sum v == 0)%Q.
Proof.
  induction 1 as [|x v Hx _ IH]; simpl.
  - reflexivity.
  - rewrite Hx, IH. reflexivity.
Qed.

Lemma zip_with_Forall (P1 P2 R : Q -> Prop) f a b :
  (forall x y, P1 x -> P2 y -> R (f x y)) ->
  Forall P1 a -> Forall P2 b -> Forall R (zip_with f a b).
Proof.
  intros Hf Ha. revert b.
  induction Ha as [|x a Hx _ IH]; intros b Hb; simpl; [constructor|].
  destruct Hb as [|y b Hy Hb]; constructor; auto.
Qed.

Lemma map_Forall {A B} (P : A -> Prop) (R : B -> Prop) (g : A -> B) l :
  (forall x, P x -> R (g x)) -> Forall P l -> Forall R (map g l).
Proof. intros Hg. induction 1; simpl; constructor; auto. Qed.

Lemma broadcast2_Forall (P1 P2 R : Q -> Prop) f a b c :
  (forall x y, P1 x -> P2 y -> R (f x y)) ->
  Forall P1 a -> Forall P2 b -> broadcast2 f a b = Ok c -> Forall R c.
Proof.
  intros Hf Ha Hb. unfold broadcast2.
  destruct (length a =? length b)%nat.
  { intros [= <-]. eapply zip_with_Forall; eauto. }
  destruct a as [|x [|x' a]].
  - destruct b as [|y [|y' b]]; intros [= <-]; constructor.
  - intros [= <-]. inversion_clear Ha.
    apply (map_Forall P2 R (f x) b); auto.
  - destruct b as [|y [|y' b]]; intros [= <-].
    inversion_clear Hb.
    apply (map_Forall P1 R (fun x => f x y) (x :: x' :: a)); auto.
Qed.

Lemma broadcast_rows_Forall (P1 P2 R : Q -> Prop) f X Y Z :
  (forall x y, P1 x -> P2 y -> R (f x y)) ->
  Forall (Forall P1) X -> Forall (Forall P2) Y ->
  broadcast_rows f X Y = Ok Z -> Forall (Forall R) Z.
Proof.
  intros Hf HX. revert Y Z.
  induction HX as [|x X Hx _ IH]; intros Y Z HY; simpl.
  { intros [= <-]. constructor. }
  destruct HY as [|y Y Hy HY]; [intros [= <-]; constructor|].
  destruct (broadcast2 f x y) as [r|] eqn:Er; simpl; [|discriminate].
  destruct (broadcast_rows f X Y) as [R'|] eqn:ER; simpl; [|discriminate].
  intros [= <-]. constructor; eauto using broadcast2_Forall.
Qed.

Lemma for_each_broadcast2_Forall (P1 P2 R : Q -> Prop) f X w Y :
  (forall x y, P1 x -> P2 y -> R (f x y)) ->
  Forall (Forall P1) X -> Forall P2 w ->
  for_each (fun r => broadcast2 f r w) X = Ok Y -> Forall (Forall R) Y.
Proof.
  intros Hf HX Hw. revert Y.
  induction HX as [|x X Hx _ IH]; intros Y; simpl.
  { intros [= <-]. constructor. }
  destruct (broadcast2 f x w) as [r|] eqn:Er; simpl; [|discriminate].
  destruct (for_each _ X) as [R'|] eqn:ER; simpl; [|discriminate].
  intros [= <-]. constructor; eauto using broadcast2_Forall.
Qed.

(** The value of a transition sum is the sum of entries that inherit a
    property [R2] from the entries of the array ([P]) and of the weights
    ([Pw]). *)
Lemma transition_sum_Forall (P Pw R1 R2 : Q -> Prop) M w q :
  (forall x y, P x -> P y -> R1 ((1 - x) * y)%Q) ->
  (forall x y, R1 x -> Pw y -> R2 (x * y)%Q) ->
  all_entries P M -> Forall Pw w ->
  transition_sum M w = Ok q ->
  exists Y, q = np_sum Y /\ Forall R2 Y.
Proof.
  intros H1 H2 HM Hw. destruct M as [v|rows]; simpl in *.
  - destruct (broadcast2 Qmult _ (from_1 v)) as [x|] eqn:Ex; simpl;
      [|discriminate].
    destruct (broadcast2 Qmult x w) as [y|] eqn:Ey; simpl; [|discriminate].
    intros [= <-]. exists y. split; [reflexivity|].
    eapply broadcast2_Forall; [exact H2| |exact Hw|exact Ey].
    eapply (broadcast2_Forall (fun x => exists a, P a /\ x = (1 - a)%Q) P);
      [| | |exact Ex].
    + intros ? y0 (a & Ha & ->) Hy. auto.
    + apply (map_Forall P); [eauto|]. apply Forall_take, HM.
    + apply Forall_drop, HM.
  - destruct (broadcast_rows Qmult _ (from_1 rows)) as [X|] eqn:EX; simpl;
      [|discriminate].
    destruct (for_each _ X) as [Y|] eqn:EY; simpl; [|discriminate].
    intros [= <-]. exists (concat Y). split; [reflexivity|].
    apply Forall_concat.
    eapply for_each_broadcast2_Forall; [exact H2| |exact Hw|exact EY].
    eapply (broadcast_rows_Forall (fun x => exists a, P a /\ x = (1 - a)%Q) P);
      [| | |exact EX].
    + intros ? y0 (a & Ha & ->) Hy. auto.
    + apply (map_Forall (Forall P)); [|apply Forall_take, HM].
      intros r Hr. apply (map_Forall P); eauto.
    + apply Forall_drop, HM.
Qed.

(** *** Column-shaped operands never fail to broadcast *)

Lemma broadcast2_singleton f x b :
  exists c, broadcast2 f [x] b = Ok c.
Proof.
  unfold broadcast2. destruct (length [x] =? length b)%nat; eauto.
Qed.

Lemma broadcast2_singletons f x y :
  broadcast2 f [x] [y] = Ok [f x y].
Proof. reflexivity. Qed.

Lemma column_inv r rows :
  column (r :: rows) -> (exists x, r = [x]) /\ column rows.
Proof.
  intros H. inversion_clear H as [|? ? Hr Hrows]. split; [|exact Hrows].
  destruct r as [|x [|? ?]]; try discriminate. eauto.
Qed.

Lemma broadcast_rows_column f X Y :
  column X -> column Y ->
  exists Z, broadcast_rows f X Y = Ok Z /\ column Z.
Proof.
  revert Y. induction X as [|x X IH]; intros Y HX HY; simpl.
  { exists []. split; [reflexivity|constructor]. }
  destruct Y as [|y Y]. { exists []. split; [reflexivity|constructor]. }
  apply column_inv in HX as [[a ->] HX]. apply column_inv in HY as [[b ->] HY].
  destruct (IH Y HX HY) as (Z & -> & HZ).
  rewrite broadcast2_singletons. simpl.
  exists ([f a b] :: Z). split; [reflexivity|]. constructor; [reflexivity|exact HZ].
Qed.

Lemma for_each_column_ok f X w :
  column X -> exists Y, for_each (fun r => broadcast2 f r w) X = Ok Y.
Proof.
  induction X as [|x X IH]; intros HX; simpl; [eauto|].
  apply column_inv in HX as [[a ->] HX].
  destruct (broadcast2_singleton f a w) as [c ->].
  destruct (IH HX) as [Y ->]. simpl. eauto.
Qed.

Lemma column_take n rows : column rows -> column (take n rows).
Proof. apply Forall_take. Qed.

Lemma column_drop n rows : column rows -> column (drop n rows).
Proof. apply Forall_drop. Qed.

Lemma column_as_column v : column (as_column v).
Proof. induction v; simpl; constructor; auto. Qed.

Lemma column_map g rows : column rows -> column (map (map g) rows).
Proof.
  induction 1 as [|r rows Hr _ IH]; simpl; constructor; [|exact IH].
  rewrite length_map. exact Hr.
Qed.

Lemma transition_sum_column_ok rows w :
  column rows -> exists q, transition_sum (Arr2 rows) w = Ok q.
Proof.
  intros H. simpl.
  destruct (broadcast_rows_column Qmult
              (map (map (fun a => 1 - a)%Q) (but_last rows)) (from_1 rows))
    as (X & -> & HX).
  { apply column_map, column_take, H. }
  { apply column_drop, H. }
  simpl. destruct (for_each_column_ok Qmult X w HX) as [Y ->].
  simpl. eauto.
Qed.

Lemma migration_epm_flat_ok V_du alpha beta v :
  exists q, migration_epm V_du alpha beta (Arr1 v) = Ok q.
Proof.
  unfold migration_epm. simpl.
  destruct (1 <? length (as_column v))%nat; [|eauto].
  apply transition_sum_column_ok, column_as_column.
Qed.

Lemma migration_cpm_column_ok V_cu alpha beta rows :
  column rows -> exists q, migration_cpm V_cu alpha beta (Arr2 rows) = Ok q.
Proof.
  intros H. unfold migration_cpm. simpl.
  destruct (1 <? length rows)%nat; [|eauto].
  apply transition_sum_column_ok, H.
Qed.

Lemma calculate_energy_total_flat_ok
  L_epm L_cpm P_epm P_prime_epm C_epm P_cpm P_prime_cpm C_cpm
  V_du V_cu alpha beta T v rows S_t :
  column rows ->
  exists e, calculate_energy_total L_epm L_cpm P_epm P_prime_epm C_epm
              P_cpm P_prime_cpm C_cpm V_du V_cu alpha beta T
              (Arr1 v) (Arr2 rows) S_t = Ok e.
Proof.
  intros H. unfold calculate_energy_total.
  destruct (migration_epm_flat_ok V_du alpha beta v) as [m ->].
  destruct (migration_cpm_column_ok V_cu alpha beta rows H) as [c ->].
  simpl. eauto.
Qed.

Lemma repeat_Forall {A} (P : A -> Prop) x n : P x -> Forall P (repeat x n).
Proof. intros H. induction n; simpl; constructor; auto. Qed.

Lemma column_zeros n : column (repeat (repeat 0%Q 1) n).
Proof. apply repeat_Forall. reflexivity. Qed.

(** With an all-zero context the class-C migration term vanishes. *)
Lemma migration_cpm_zeros V_cu alpha beta n :
  exists z, migration_cpm V_cu alpha beta (np_zeros n 1) = Ok z /\ (z == 0)%Q.
Proof.
  destruct (migration_cpm_column_ok V_cu alpha beta _ (column_zeros n))
    as [z Hz].
  exists z. split; [exact Hz|].
  unfold migration_cpm, np_zeros in Hz.
  destruct (1 <? shape0 (Arr2 (repeat (repeat 0%Q 1) n)))%nat.
  - destruct (transition_sum_Forall (fun x => x == 0)%Q (fun _ => True)
                (fun x => x == 0)%Q (fun x => x == 0)%Q
                (Arr2 (repeat (repeat 0%Q 1) n))
                (map (fun v => alpha * v + beta)%Q
                   (take (length (hd [] (repeat (repeat 0%Q 1) n))) V_cu)) z)
      as (Y & -> & HY).
    + intros x y _ ->. ring.
    + intros x y -> _. ring.
    + simpl. apply repeat_Forall. repeat constructor.
    + apply Forall_forall. auto.
    + exact Hz.
    + apply np_sum_zero, HY.
  - injection Hz as <-. reflexivity.
Qed.

(** ** Rules for [wp] *)

Lemma wp_ret {A} (a : A) t w Φ Ψ : Φ a w -> wp (mret a) t w Φ Ψ.
Proof. intros H. exact H. Qed.

Lemma wp_bind {A B} (m : M A) (f : A -> M B) t w Φ Ψ :
  wp m t w (fun a w' => wp (f a) t w' Φ Ψ) Ψ -> wp (m ≫= f) t w Φ Ψ.
Proof.
  unfold wp, mbind, M_bind. destruct (m t w) as [[a|e] w']; auto.
Qed.

Lemma wp_mono {A} (m : M A) t w (Φ Φ' : A -> world -> Prop) Ψ :
  wp m t w Φ Ψ -> (forall a w', Φ a w' -> Φ' a w') -> wp m t w Φ' Ψ.
Proof.
  unfold wp. destruct (m t w) as [[a|e] w']; auto.
Qed.

Lemma wp_lift {A} (r : result A) t w Φ Ψ :
  match r with Ok a => Φ a w | Raise e => Ψ e w end -> wp (lift r) t w Φ Ψ.
Proof. intros H. unfold wp, lift. destruct r; exact H. Qed.

Lemma wp_run {A} (m : M A) t w Φ Ψ r w' :
  wp m t w Φ Ψ -> m t w = (r, w') ->
  match r with Ok a => Φ a w' | Raise e => Ψ e w' end.
Proof. unfold wp. intros H E. rewrite E in H. exact H. Qed.

Lemma wp_for_loop {St A} (body : St -> A -> M St)
  (I : nat -> St -> world -> Prop)
  l s t w Φ Ψ :
  I 0%nat s w ->
  (forall k x s w, l !! k = Some x -> I k s w ->
     wp (body s x) t w (I (S k)) Ψ) ->
  (forall s w', I (length l) s w' -> Φ s w') ->
  wp (for_loop body s l) t w Φ Ψ.
Proof.
  revert I s w. induction l as [|x l IH]; intros I s w H0 Hbody Hend; simpl.
  - apply wp_ret. auto.
  - apply wp_bind. eapply wp_mono; [apply (Hbody 0%nat x); [reflexivity|exact H0]|].
    intros s' w' H1. apply (IH (fun k => I (S k))); [exact H1| |exact Hend].
    intros k y s'' w'' Hk. apply (Hbody (S k)). exact Hk.
Qed.

Lemma wp_comprehension_from {A B} (f : A -> M B) (I : list B -> world -> Prop)
  l acc t w Φ Ψ :
  I acc w ->
  (forall x ys w, x ∈ l -> I ys w ->
     wp (f x) t w (fun y w' => I (ys ++ [y]) w') Ψ) ->
  (forall ys w', length ys = length l -> I (acc ++ ys) w' -> Φ ys w') ->
  wp (comprehension f l) t w Φ Ψ.
Proof.
  revert acc w Φ.
  induction l as [|x l IH]; intros acc w Φ H0 Hf Hend; simpl.
  - apply wp_ret. apply Hend; [reflexivity|]. rewrite app_nil_r. exact H0.
  - apply wp_bind. eapply wp_mono; [apply (Hf x acc); [left|exact H0]|].
    intros y w' H1. apply wp_bind. apply (IH (acc ++ [y])); [exact H1| |].
    + intros x' ys w'' Hx'. apply Hf. right. exact Hx'.
    + intros ys w'' Hlen HI. apply wp_ret. apply Hend; [simpl; lia|].
      rewrite <- app_assoc in HI. exact HI.
Qed.

Lemma wp_comprehension {A B} (f : A -> M B) (I : list B -> world -> Prop)
  l t w Φ Ψ :
  I [] w ->
  (forall x ys w, x ∈ l -> I ys w ->
     wp (f x) t w (fun y w' => I (ys ++ [y]) w') Ψ) ->
  (forall ys w', length ys = length l -> I ys w' -> Φ ys w') ->
  wp (comprehension f l) t w Φ Ψ.
Proof.
  intros H0 Hf Hend. apply (wp_comprehension_from f I l []); auto.
Qed.

(** ** Worlds *)

Lemma extends_refl w : extends w w.
Proof. repeat split; auto. Qed.

Lemma extends_trans w1 w2 w3 : extends w1 w2 -> extends w2 w3 -> extends w1 w3.
Proof.
  intros (H1 & H2 & H3 & H4) (H1' & H2' & H3' & H4').
  repeat split; [etrans; eassumption|lia|congruence|congruence].
Qed.

Lemma extends_lookup w w' l (a : list Q) :
  extends w w' -> heap w !! l = Some a -> heap w' !! l = Some a.
Proof. intros (H & _) Hl. eapply prefix_lookup_Some; eassumption. Qed.

Lemma extends_arr n w w' l : extends w w' -> arr n w l -> arr n w' l.
Proof. intros H (a & Ha & Hn). exists a. eauto using extends_lookup. Qed.

Lemma extends_clipped bounds w w' l :
  extends w w' -> clipped bounds w l -> clipped bounds w' l.
Proof. intros H (x & Hx & Hl). exists x. eauto using extends_lookup. Qed.

Lemma extends_scored eval w w' l e :
  extends w w' -> scored eval w l e -> scored eval w' l e.
Proof. intros H (a & Ha & He). exists a. eauto using extends_lookup. Qed.

(** ** The primitives *)

Lemma wp_alloc a t w Φ Ψ :
  (forall l w', extends w w' -> heap w' !! l = Some a -> Φ l w') ->
  wp (alloc a) t w Φ Ψ.
Proof.
  intros H. unfold wp, alloc. apply H.
  - repeat split; simpl; auto. apply prefix_app_r. reflexivity.
  - simpl. apply list_lookup_middle. reflexivity.
Qed.

Lemma wp_deref l a t w Φ Ψ :
  heap w !! l = Some a -> Φ a w -> wp (deref l) t w Φ Ψ.
Proof. intros Hl H. unfold wp, deref. rewrite Hl. exact H. Qed.

Lemma wp_random_random t w Φ Ψ :
  (forall u w', extends w w' -> Φ u w') -> wp random_random t w Φ Ψ.
Proof.
  intros H. unfold wp, random_random. apply H.
  repeat split; simpl; auto.
Qed.

Lemma wp_random_uniform a b t w Φ Ψ :
  (forall u w', extends w w' -> Φ u w') -> wp (random_uniform a b) t w Φ Ψ.
Proof.
  intros H. apply wp_bind, wp_random_random. intros u w' Hw.
  apply wp_ret. auto.
Qed.

Lemma wp_random_gauss mu sigma t w Φ Ψ :
  (forall u w', extends w w' -> Φ u w') -> wp (random_gauss mu sigma) t w Φ Ψ.
Proof.
  intros H. apply wp_bind, wp_random_random. intros u w' Hw.
  apply wp_ret. auto.
Qed.

Lemma wp_randbelow n t w Φ Ψ :
  (0 < n)%nat ->
  (forall k w', (k < n)%nat -> extends w w' -> Φ k w') ->
  wp (randbelow n) t w Φ Ψ.
Proof.
  intros Hn H. apply wp_bind, wp_random_random. intros u w' Hw.
  apply wp_ret. apply H; [|exact Hw]. apply Nat.mod_upper_bound. lia.
Qed.

Lemma wp_random_sample2 n t w Φ Ψ :
  ((2 <= n)%nat -> forall j k w', (j < n)%nat -> (k < n)%nat -> j <> k ->
     extends w w' -> Φ (j, k) w') ->
  ((n < 2)%nat -> Ψ ValueError w) ->
  wp (random_sample2 (seq 0 n)) t w Φ Ψ.
Proof.
  intros Hok Herr. unfold random_sample2. rewrite length_seq.
  destruct (n <? 2)%nat eqn:E.
  { apply wp_lift. apply Herr. apply Nat.ltb_lt. exact E. }
  apply Nat.ltb_ge in E.
  apply wp_bind, wp_randbelow; [lia|]. intros j w1 Hj Hw1.
  apply wp_bind, wp_lift. rewrite lookup_seq_lt by exact Hj. simpl.
  apply wp_bind, wp_randbelow; [lia|]. intros k w2 Hk Hw2.
  apply wp_bind, wp_lift.
  assert (Hlast : last (seq 0 n) = Some (n - 1)%nat).
  { destruct n as [|m]; [lia|]. rewrite seq_S, last_snoc. f_equal. simpl. lia. }
  rewrite Hlast. simpl.
  destruct (decide (j = k)) as [->|Hne].
  - rewrite list_lookup_insert_eq by (rewrite length_seq; lia). simpl.
    apply wp_ret. apply Hok; [lia|lia|lia|lia|].
    eauto using extends_trans.
  - rewrite list_lookup_insert_ne by exact Hne.
    rewrite lookup_seq_lt by lia. simpl.
    apply wp_ret. apply Hok; [lia|lia|lia|lia|].
    eauto using extends_trans.
Qed.

Lemma wp_getitem {A} (l : list A) i x t w Φ Ψ :
  l !! i = Some x -> Φ x w -> wp (getitem l i) t w Φ Ψ.
Proof. intros Hl H. apply wp_lift. rewrite Hl. exact H. Qed.

Lemma wp_setitem {A} (l : list A) i x t w Φ Ψ :
  (i < length l)%nat -> Φ (<[i := x]> l) w -> wp (setitem l i x) t w Φ Ψ.
Proof.
  intros Hi H. unfold setitem.
  destruct (i <? length l)%nat eqn:E; [apply wp_ret, H|].
  apply Nat.ltb_ge in E. lia.
Qed.

Lemma broadcast2_same_length f a b :
  length a = length b -> broadcast2 f a b = Ok (zip_with f a b).
Proof. intros H. unfold broadcast2. rewrite H, Nat.eqb_refl. reflexivity. Qed.

Lemma wp_np_binop f x y a b t w Φ Ψ :
  heap w !! x = Some a -> heap w !! y = Some b -> length a = length b ->
  (forall c w', extends w w' -> heap w' !! c = Some (zip_with f a b) ->
     Φ c w') ->
  wp (np_binop f x y) t w Φ Ψ.
Proof.
  intros Hx Hy Hlen H. unfold np_binop.
  apply wp_bind, (wp_deref x a); [exact Hx|].
  apply wp_bind, (wp_deref y b); [exact Hy|].
  apply wp_bind, wp_lift. rewrite broadcast2_same_length by exact Hlen.
  apply wp_alloc. exact H.
Qed.

Lemma wp_np_scale s x a t w Φ Ψ :
  heap w !! x = Some a ->
  (forall c w', extends w w' -> heap w' !! c = Some (map (Qmult s) a) ->
     Φ c w') ->
  wp (np_scale s x) t w Φ Ψ.
Proof.
  intros Hx H. unfold np_scale.
  apply wp_bind, (wp_deref x a); [exact Hx|].
  apply wp_alloc. exact H.
Qed.

Lemma wp_np_clip x a a_min a_max t w Φ Ψ :
  heap w !! x = Some a -> length a = length a_min ->
  length a = length a_max ->
  (forall c w', extends w w' ->
     heap w' !! c = Some (clip_vec a a_min a_max) -> Φ c w') ->
  wp (np_clip x a_min a_max) t w Φ Ψ.
Proof.
  intros Hx Hmin Hmax H. unfold np_clip.
  apply wp_bind, (wp_deref x a); [exact Hx|].
  apply wp_bind, wp_lift. rewrite broadcast2_same_length by exact Hmin.
  apply wp_bind, wp_lift. rewrite broadcast2_same_length.
  - apply wp_alloc. exact H.
  - rewrite length_zip_with. lia.
Qed.

(** ** One individual, one generation *)

Section Pollination.
Variable population_size : Z.
Variable bounds : list (Q * Q).
Local Abbreviation n := (length bounds).

Lemma clipped_arr w l : clipped bounds w l -> arr n w l.
Proof.
  intros (x & Hx & Hl). eexists. split; [exact Hl|].
  unfold clip_vec. rewrite !length_zip_with, !length_map. lia.
Qed.

(** The move shared by the two kinds of pollination: a difference of two
    individuals, scaled and added to individual [i]. *)
Lemma wp_move (s : Q) p_a p_b population i t w Φ Ψ :
  arr n w p_a -> arr n w p_b -> Forall (arr n w) population ->
  (i < length population)%nat ->
  (forall moved w', extends w w' -> arr n w' moved ->
     Φ (<[i := moved]> population) w') ->
  wp (d ← np_sub p_a p_b;
      step ← np_scale s d;
      p_i ← getitem population i;
      moved ← np_add p_i step;
      setitem population i moved) t w Φ Ψ.
Proof.
  intros (a & Ha & Hna) (b & Hb & Hnb) Hpop Hi H.
  destruct (lookup_lt_is_Some_2 population i Hi) as [p_i Hp_i].
  destruct (Forall_lookup_1 _ _ _ _ Hpop Hp_i) as (x & Hx & Hnx).
  apply wp_bind, (wp_np_binop Qminus p_a p_b a b); [exact Ha|exact Hb|lia|].
  intros d w1 Hw1 Hd.
  apply wp_bind. eapply wp_np_scale; [exact Hd|].
  intros step w2 Hw2 Hstep.
  apply wp_bind, (wp_getitem population i p_i); [exact Hp_i|].
  assert (Hw : extends w w2) by eauto using extends_trans.
  apply wp_bind. eapply (wp_np_binop Qplus p_i step x);
    [eauto using extends_lookup|exact Hstep| |].
  { rewrite length_map, length_zip_with. lia. }
  intros moved w3 Hw3 Hmoved.
  apply wp_setitem; [exact Hi|].
  apply H; [eauto using extends_trans|].
  eexists. split; [exact Hmoved|].
  rewrite length_zip_with, length_map, length_zip_with. lia.
Qed.

Lemma wp_pollinate best population i t w Φ :
  Forall (arr n w) population -> arr n w best ->
  (i < length population)%nat ->
  length population = Z.to_nat population_size ->
  (forall c w', extends w w' -> clipped bounds w' c ->
     Φ (<[i := c]> population) w') ->
  wp (pollinate population_size bounds best population i) t w Φ
     (fun e _ => failure population_size e).
Proof.
  intros Hpop Hbest Hi Hlen H. unfold pollinate.
  apply wp_bind, wp_random_random. intros u w1 Hw1.
  assert (Hpop1 : Forall (arr n w1) population).
  { eapply Forall_impl; [exact Hpop|]. eauto using extends_arr. }
  apply wp_bind.
  apply (wp_mono _ _ _ (fun population' w' =>
           exists moved, population' = <[i := moved]> population /\
             extends w w' /\ arr n w' moved)).
  - destruct (Qltb u (8 # 10)).
    + apply wp_bind, wp_random_gauss. intros L w2 Hw2.
      destruct (lookup_lt_is_Some_2 population i Hi) as [p_i Hp_i].
      apply wp_bind, (wp_getitem population i p_i); [exact Hp_i|].
      assert (Hw : extends w w2) by eauto using extends_trans.
      apply wp_move; [| | |exact Hi|].
      * eapply extends_arr; [exact Hw|].
        exact (Forall_lookup_1 _ _ _ _ Hpop Hp_i).
      * eauto using extends_arr.
      * eapply Forall_impl; [exact Hpop|]. eauto using extends_arr.
      * intros moved w3 Hw3 Hmoved. exists moved.
        eauto using extends_trans.
    + apply wp_bind, wp_random_random. intros epsilon w2 Hw2.
      unfold py_range. apply wp_bind, wp_random_sample2.
      * intros _ j k w3 Hj Hk _ Hw3.
        destruct (lookup_lt_is_Some_2 population j) as [p_j Hp_j]; [lia|].
        destruct (lookup_lt_is_Some_2 population k) as [p_k Hp_k]; [lia|].
        apply wp_bind, (wp_getitem population j p_j); [exact Hp_j|].
        apply wp_bind, (wp_getitem population k p_k); [exact Hp_k|].
        assert (Hw : extends w w3) by eauto using extends_trans.
        apply wp_move; [| | |exact Hi|].
        -- eapply extends_arr; [exact Hw|].
           exact (Forall_lookup_1 _ _ _ _ Hpop Hp_j).
        -- eapply extends_arr; [exact Hw|].
           exact (Forall_lookup_1 _ _ _ _ Hpop Hp_k).
        -- eapply Forall_impl; [exact Hpop|]. eauto using extends_arr.
        -- intros moved w4 Hw4 Hmoved. exists moved.
           eauto using extends_trans.
      * intros Hsmall. right. split; [reflexivity|]. lia.
  - intros population' w2 (moved & -> & Hw2 & (x & Hx & Hnx)).
    apply wp_bind. eapply (wp_getitem _ i moved).
    { apply list_lookup_insert_eq. exact Hi. }
    apply wp_bind, (wp_np_clip moved x); [exact Hx| | |].
    { rewrite length_map. exact Hnx. }
    { rewrite length_map. exact Hnx. }
    intros c w3 Hw3 Hc. apply wp_setitem.
    { rewrite length_insert. exact Hi. }
    rewrite list_insert_insert_eq.
    apply H; [eauto using extends_trans|].
    exists x. split; [exact Hnx|exact Hc].
Qed.
End Pollination.

(** ** Minimum, argmin, convergence sequences *)

Lemma argmin_from_lookup (full l : list Q) i bi bv :
  full !! bi = Some bv -> drop i full = l ->
  full !! argmin_from bi i bv l = Some (min_from bv l).
Proof.
  revert i bi bv. induction l as [|y r IH]; intros i bi bv Hbi Hdrop; simpl.
  { exact Hbi. }
  assert (Hi : full !! i = Some y).
  { rewrite <- (Nat.add_0_r i), <- lookup_drop, Hdrop. reflexivity. }
  assert (Hr : drop (S i) full = r).
  { rewrite (drop_S _ _ _ Hi) in Hdrop. congruence. }
  destruct (Qltb y bv); apply IH; assumption.
Qed.

Lemma argmin_min (fitness : list Q) :
  fitness <> [] ->
  exists i m, np_argmin fitness = Ok i /\ py_min fitness = Ok m /\
    fitness !! i = Some m.
Proof.
  destruct fitness as [|x r]; [congruence|]. intros _.
  exists (argmin_from 0 1 x r), (min_from x r).
  split; [reflexivity|]. split; [reflexivity|].
  apply argmin_from_lookup; reflexivity.
Qed.

Lemma descending_nonincreasing l : descending l -> nonincreasing l.
Proof.
  intros H i x y Hx Hy. destruct (H i x y Hx Hy) as [->|Hlt].
  - apply Qle_refl.
  - apply Qlt_le_weak, Hlt.
Qed.

Lemma descending_singleton x : descending [x].
Proof. intros i a b Ha Hb. destruct i; discriminate. Qed.

Lemma descending_snoc l x y :
  descending l -> last l = Some x -> y = x \/ (y < x)%Q ->
  descending (l ++ [y]).
Proof.
  intros Hl Hlast Hyx i a b Ha Hb.
  assert (Hlen : (S i < length (l ++ [y]))%nat) by eauto using lookup_lt_Some.
  rewrite length_app in Hlen. simpl in Hlen.
  destruct (decide (S i < length l)%nat) as [Hlt|Hge].
  - rewrite lookup_app_l in Ha, Hb by lia. eauto.
  - assert (Hi : S i = length l) by lia.
    rewrite lookup_app_l in Ha by lia.
    rewrite lookup_app_r in Hb by lia.
    rewrite Hi, Nat.sub_diag in Hb. injection Hb as <-.
    rewrite last_lookup, <- Hi in Hlast. simpl in Hlast.
    rewrite Hlast in Ha. injection Ha as <-. exact Hyx.
Qed.

Lemma wp_print line t w Φ Ψ :
  Φ tt (World (heap w) (cursor w) (stdout w ++ [line]) (figures w)) ->
  wp (print line) t w Φ Ψ.
Proof. intros H. exact H. Qed.

Lemma wp_plt_plot series t w Φ Ψ :
  Φ tt (World (heap w) (cursor w) (stdout w) (figures w ++ [series])) ->
  wp (plt_plot series) t w Φ Ψ.
Proof. intros H. exact H. Qed.

(** ** The search loop *)

Section Generations.
Variables (max_generations population_size : Z).
Variable bounds : list (Q * Q).
Variables (L_epm L_cpm : list Q).
Variables (P_epm P_prime_epm C_epm P_cpm P_prime_cpm C_cpm : Q).
Variables (V_du V_cu : list Q).
Variables (alpha beta T : Q).

Local Abbreviation n := (length bounds).
Local Abbreviation B_t := (np_zeros (length bounds) 1).
Local Abbreviation S_t := (np_ones (length bounds) 1).
Local Abbreviation eval :=
  (run_energy bounds L_epm L_cpm P_epm P_prime_epm C_epm
     P_cpm P_prime_cpm C_cpm V_du V_cu alpha beta T).
Local Abbreviation evaluate_all' :=
  (evaluate_all L_epm L_cpm P_epm P_prime_epm C_epm
     P_cpm P_prime_cpm C_cpm V_du V_cu alpha beta T B_t S_t).
Local Abbreviation fails := (fun e (_ : world) => failure population_size e).

Lemma eval_ok a : exists e, eval a = Ok e.
Proof. apply calculate_energy_total_flat_ok, column_zeros. Qed.

Lemma evaluate_run l a e t w :
  heap w !! l = Some a -> eval a = Ok e ->
  evaluate L_epm L_cpm P_epm P_prime_epm C_epm P_cpm P_prime_cpm C_cpm
    V_du V_cu alpha beta T B_t S_t l t w = (Ok e, w).
Proof.
  intros Hl He. unfold evaluate, mbind, M_bind, deref, lift.
  rewrite Hl. simpl. exact (f_equal (fun r => (r, w)) He).
Qed.

Lemma evaluate_all_run population t w :
  Forall (arr n w) population ->
  exists fitness,
    evaluate_all' population t w = (Ok fitness, w) /\
    Forall2 (scored eval w) population fitness.
Proof.
  induction 1 as [|l population (a & Hl & _) _ (fitness & IH & Hfit)].
  { exists []. split; [reflexivity|constructor]. }
  destruct (eval_ok a) as [e He].
  exists (e :: fitness). split.
  - unfold evaluate_all', evaluate_all in *. simpl.
    unfold mbind at 1, M_bind.
    rewrite (evaluate_run l a e t w Hl He).
    unfold mbind at 1, M_bind. rewrite IH. reflexivity.
  - constructor; [|exact Hfit]. exists a. auto.
Qed.

Lemma wp_evaluate_all population t w Φ Ψ :
  Forall (arr n w) population ->
  (forall fitness, Forall2 (scored eval w) population fitness ->
     Φ fitness w) ->
  wp (evaluate_all' population) t w Φ Ψ.
Proof.
  intros Hpop H. destruct (evaluate_all_run population t w Hpop)
    as (fitness & Hrun & Hfit).
  unfold wp. rewrite Hrun. auto.
Qed.

Lemma wp_update_best st population fitness t w Φ Ψ :
  Forall2 (scored eval w) population fitness ->
  Forall (arr n w) population -> population <> [] ->
  scored eval w (best_solution st) (best_fitness st) ->
  arr n w (best_solution st) ->
  (forall bf bs, scored eval w bs bf -> arr n w bs ->
     bf = best_fitness st \/ (bf < best_fitness st)%Q -> Φ (bf, bs) w) ->
  wp (update_best st population fitness) t w Φ Ψ.
Proof.
  intros Hfit Hpop Hne Hbest Harr H. unfold update_best.
  destruct (argmin_min fitness) as (i & m & Hi & Hm & Him).
  { intros ->. apply Forall2_nil_inv_r in Hfit. contradiction. }
  apply wp_bind, wp_lift. rewrite Hm.
  destruct (Qltb m (best_fitness st)) eqn:E.
  - apply wp_bind, wp_lift. rewrite Hi.
    destruct (lookup_lt_is_Some_2 population i) as [l Hl].
    { rewrite (Forall2_length _ _ _ Hfit). eauto using lookup_lt_Some. }
    apply wp_bind, (wp_getitem population i l); [exact Hl|].
    apply wp_ret. apply H.
    + exact (Forall2_lookup_lr _ _ _ _ _ _ Hfit Hl Him).
    + exact (Forall_lookup_1 _ _ _ _ Hpop Hl).
    + right. apply Qltb_lt, E.
  - apply wp_ret. apply H; [exact Hbest|exact Harr|left; reflexivity].
Qed.

Lemma wp_pollinate_all best population t w Φ :
  Forall (arr n w) population -> arr n w best ->
  length population = Z.to_nat population_size ->
  (forall population' w', extends w w' ->
     length population' = length population ->
     Forall (clipped bounds w') population' -> Φ population' w') ->
  wp (for_loop (pollinate population_size bounds best) population
        (py_range population_size)) t w Φ fails.
Proof.
  intros Hpop Hbest Hlen H.
  apply (wp_for_loop _ (fun k population' w' =>
           extends w w' /\ length population' = length population /\
           Forall (arr n w') population' /\
           forall j c, (j < k)%nat -> population' !! j = Some c ->
             clipped bounds w' c)).
  - repeat split; auto using extends_refl. intros j c Hj. lia.
  - intros k x pop1 w1 Hk (Hw1 & Hlen1 & Hpop1 & Hclip).
    unfold py_range in Hk. apply lookup_seq in Hk as [-> Hk]. simpl.
    apply wp_pollinate; [exact Hpop1|eauto using extends_arr|lia|lia|].
    intros c w2 Hw2 Hc. split; [eauto using extends_trans|].
    split; [rewrite length_insert; exact Hlen1|]. split.
    + apply Forall_insert; [|apply clipped_arr, Hc].
      eapply Forall_impl; [exact Hpop1|]. eauto using extends_arr.
    + intros j c' Hj Hc'. destruct (decide (j = k)) as [->|Hne].
      * rewrite list_lookup_insert_eq in Hc' by lia. congruence.
      * rewrite list_lookup_insert_ne in Hc' by auto.
        eapply extends_clipped; [exact Hw2|]. apply (Hclip j); [lia|exact Hc'].
  - intros pop1 w1 (Hw1 & Hlen1 & Hpop1 & Hclip).
    apply H; [exact Hw1|exact Hlen1|].
    apply Forall_lookup_2. intros j c Hj. apply (Hclip j); [|exact Hj].
    unfold py_range. rewrite length_seq, <- Hlen, <- Hlen1.
    eauto using lookup_lt_Some.
Qed.
Local Abbreviation inv := (invariant population_size bounds eval).

Lemma wp_generation_step w0 g st t w :
  inv w0 g st w ->
  wp (generation_step population_size bounds L_epm L_cpm
        P_epm P_prime_epm C_epm P_cpm P_prime_cpm C_cpm
        V_du V_cu alpha beta T B_t S_t st g) t w (inv w0 (S g)) fails.
Proof.
  intros (Hheap & Hcur & Hfig & HP & Hlen & Hpop & Hbarr & Hbest
          & (f0 & lines & Hout & Hgen & Hconv) & Hlast & Hmono & _).
  unfold generation_step.
  apply wp_bind, wp_pollinate_all; [exact Hpop|exact Hbarr|exact Hlen|].
  intros pop1 w1 Hw1 Hlen1 Hclip.
  assert (Hpop1 : Forall (arr n w1) pop1).
  { eapply Forall_impl; [exact Hclip|]. apply clipped_arr. }
  apply wp_bind, wp_evaluate_all; [exact Hpop1|]. intros fitness Hfit.
  apply wp_bind, wp_update_best;
    [exact Hfit|exact Hpop1| |eauto using extends_scored
    |eauto using extends_arr|].
  { intros ->. simpl in Hlen1. lia. }
  intros bf bs Hs Ha Hle. simpl.
  apply wp_bind, wp_print, wp_ret.
  destruct Hw1 as (Hh1 & Hc1 & Ho1 & Hf1).
  split; [simpl; etrans; eassumption|].
  split; [simpl; lia|]. split; [simpl; congruence|].
  split; [exact HP|]. split; [simpl; lia|].
  split; [exact Hpop1|]. split; [exact Ha|]. split; [exact Hs|].
  split.
  { exists f0, (lines ++ [((g + 1)%nat, bf)]). split; [|split].
    - simpl. rewrite Ho1, Hout, app_assoc. reflexivity.
    - rewrite map_app, Hgen, seq_S. simpl.
      rewrite (Nat.add_comm g 1). reflexivity.
    - simpl. rewrite map_app, Hconv. reflexivity. }
  split; [simpl; apply last_snoc|].
  split; [simpl; eapply descending_snoc; eassumption|].
  intros _. exact Hclip.
Qed.

Lemma wp_init_individual t w Φ Ψ :
  (forall l w', extends w w' -> arr n w' l -> Φ l w') ->
  wp (init_individual bounds) t w Φ Ψ.
Proof.
  intros H. unfold init_individual.
  apply wp_bind, (wp_comprehension _ (fun _ w' => extends w w')).
  - apply extends_refl.
  - intros b ys w1 _ Hw1. apply wp_random_uniform.
    intros u w2 Hw2. eauto using extends_trans.
  - intros xs w1 Hxs Hw1. apply wp_alloc. intros l w2 Hw2 Hl.
    apply H; [eauto using extends_trans|]. exists xs. auto.
Qed.

Lemma wp_init_population t w Φ Ψ :
  (forall population w', extends w w' ->
     length population = Z.to_nat population_size ->
     Forall (arr n w') population -> Φ population w') ->
  wp (init_population population_size bounds) t w Φ Ψ.
Proof.
  intros H. unfold init_population.
  apply (wp_comprehension _ (fun ys w' =>
           extends w w' /\ Forall (arr n w') ys)).
  - split; [apply extends_refl|constructor].
  - intros _ ys w1 _ (Hw1 & Hys). apply wp_init_individual.
    intros l w2 Hw2 Hl. split; [eauto using extends_trans|].
    apply Forall_app. split; [|repeat constructor; exact Hl].
    eapply Forall_impl; [exact Hys|]. eauto using extends_arr.
  - intros population w1 Hlen (Hw1 & Hpop). apply H; auto.
    rewrite Hlen. unfold py_range. apply length_seq.
Qed.

Lemma wp_initial_state t w :
  wp (initial_state population_size bounds L_epm L_cpm
        P_epm P_prime_epm C_epm P_cpm P_prime_cpm C_cpm
        V_du V_cu alpha beta T) t w
     (fun r w' => r.1.1 = B_t /\ r.1.2 = S_t /\ inv w 0%nat r.2 w') fails.
Proof.
  unfold initial_state.
  apply wp_bind, wp_init_population. intros population w1 Hw1 Hlen Hpop.
  apply wp_bind, wp_lift.
  destruct population as [|p0 population]; simpl.
  { left. split; [reflexivity|]. simpl in Hlen. lia. }
  pose proof (Forall_inv Hpop) as (a0 & Ha0 & Hn0).
  apply wp_bind, (wp_deref p0 a0); [exact Ha0|]. rewrite Hn0.
  apply wp_bind, wp_evaluate_all; [exact Hpop|]. intros fitness Hfit.
  destruct (argmin_min fitness) as (i & m & Hi & Hm & Him).
  { intros ->. apply Forall2_nil_inv_r in Hfit. discriminate. }
  apply wp_bind, wp_lift. rewrite Hi.
  destruct (lookup_lt_is_Some_2 (p0 :: population) i) as [l Hl].
  { rewrite (Forall2_length _ _ _ Hfit). eauto using lookup_lt_Some. }
  apply wp_bind, (wp_getitem _ i l); [exact Hl|].
  apply wp_bind, wp_lift. rewrite Hm. apply wp_ret. simpl.
  destruct Hw1 as (Hh1 & Hc1 & Ho1 & Hf1).
  split; [reflexivity|]. split; [reflexivity|].
  split; [exact Hh1|]. split; [exact Hc1|]. split; [exact Hf1|].
  split; [simpl in Hlen; lia|]. split; [exact Hlen|].
  split; [exact Hpop|].
  split; [exact (Forall_lookup_1 _ _ _ _ Hpop Hl)|].
  split; [exact (Forall2_lookup_lr _ _ _ _ _ _ Hfit Hl Him)|].
  split; [exists m, []; rewrite app_nil_r; auto|].
  split; [reflexivity|]. split; [apply descending_singleton|].
  intros H. lia.
Qed.

Lemma wp_search t w :
  wp (search max_generations population_size bounds L_epm L_cpm
        P_epm P_prime_epm C_epm P_cpm P_prime_cpm C_cpm
        V_du V_cu alpha beta T) t w
     (fun r w' => r.1.1 = B_t /\ r.1.2 = S_t /\
        inv w (Z.to_nat max_generations) r.2 w') fails.
Proof.
  unfold search. apply wp_bind.
  eapply wp_mono; [apply wp_initial_state|].
  intros [[B S] st] w1 (HB & HS & Hinv). simpl in HB, HS. subst B S.
  apply wp_bind, (wp_for_loop _ (fun k st w' => inv w k st w')).
  - exact Hinv.
  - intros k g st1 w2 Hg. unfold py_range in Hg.
    apply lookup_seq in Hg as [-> _]. simpl. apply wp_generation_step.
  - intros st1 w2 Hst. apply wp_ret. simpl.
    unfold py_range in Hst. rewrite length_seq in Hst. auto.
Qed.

Lemma wp_flower_pollination_algorithm t w :
  wp (flower_pollination_algorithm max_generations population_size bounds
        L_epm L_cpm P_epm P_prime_epm C_epm P_cpm P_prime_cpm C_cpm
        V_du V_cu alpha beta T) t w
     (fun v w' => exists st w1,
        inv w (Z.to_nat max_generations) st w1 /\
        v = [VRef (best_solution st); VFloat (best_fitness st)] /\
        w' = World (heap w1) (cursor w1) (stdout w1)
               (figures w1 ++ [convergence st])) fails.
Proof.
  unfold flower_pollination_algorithm. apply wp_bind.
  eapply wp_mono; [apply wp_search|].
  intros [[B S] st] w1 (_ & _ & Hinv). simpl in Hinv.
  apply wp_bind, wp_plt_plot, wp_ret. eauto.
Qed.
End Generations.

(** ** Dependence on the tape *)

Lemma local_ret {A} (a : A) : local (mret a).
Proof.
  intros t1 t2 w r w' [= <- <-]. split; [lia|reflexivity].
Qed.

Lemma local_lift {A} (x : result A) : local (lift x).
Proof.
  intros t1 t2 w r w' [= <- <-]. split; [lia|reflexivity].
Qed.

Lemma local_bind {A B} (m : M A) (f : A -> M B) :
  local m -> (forall a, local (f a)) -> local (m ≫= f).
Proof.
  intros Hm Hf t1 t2 w r w'. unfold mbind, M_bind.
  destruct (m t1 w) as [[a|e] w1] eqn:E1; intros E.
  - destruct (Hm t1 t2 w _ _ E1) as [Hc1 H1].
    destruct (Hf a t1 t2 w1 _ _ E) as [Hc2 H2].
    split; [lia|]. intros Hagree. rewrite H1.
    + apply H2, Hagree.
    + intros k Hk. apply Hagree. lia.
  - injection E as <- <-. destruct (Hm t1 t2 w _ _ E1) as [Hc1 H1].
    split; [exact Hc1|]. intros Hagree. rewrite H1; auto.
Qed.

Lemma local_alloc a : local (alloc a).
Proof.
  intros t1 t2 w r w' [= <- <-]. split; [simpl; lia|reflexivity].
Qed.

Lemma local_deref l : local (deref l).
Proof.
  intros t1 t2 w r w' [= <- <-]. split; [lia|reflexivity].
Qed.

Lemma local_print line : local (print line).
Proof.
  intros t1 t2 w r w' [= <- <-]. split; [simpl; lia|reflexivity].
Qed.

Lemma local_plt_plot series : local (plt_plot series).
Proof.
  intros t1 t2 w r w' [= <- <-]. split; [simpl; lia|reflexivity].
Qed.

Lemma local_random_random : local random_random.
Proof.
  intros t1 t2 w r w' [= <- <-]. split; [simpl; lia|].
  intros Hagree. unfold random_random. rewrite <- Hagree; [reflexivity|].
  simpl. lia.
Qed.

Lemma local_comprehension {A B} (f : A -> M B) l :
  (forall x, local (f x)) -> local (comprehension f l).
Proof.
  intros Hf. induction l as [|x l IH]; simpl.
  - apply local_ret.
  - apply local_bind; [apply Hf|]. intros y.
    apply local_bind; [exact IH|]. intros ys. apply local_ret.
Qed.

Lemma local_for_loop {St A} (body : St -> A -> M St) s l :
  (forall s x, local (body s x)) -> local (for_loop body s l).
Proof.
  intros Hbody. revert s. induction l as [|x l IH]; intros s; simpl.
  - apply local_ret.
  - apply local_bind; [apply Hbody|]. exact IH.
Qed.

Ltac local_step :=
  lazymatch goal with
  | |- local (mret _) => apply local_ret
  | |- local (lift _) => apply local_lift
  | |- local (alloc _) => apply local_alloc
  | |- local (deref _) => apply local_deref
  | |- local (print _) => apply local_print
  | |- local (plt_plot _) => apply local_plt_plot
  | |- local random_random => apply local_random_random
  | |- local (getitem _ _) => apply local_lift
  | |- local (comprehension _ _) => apply local_comprehension; intros ?
  | |- local (for_loop _ _ _) => apply local_for_loop; intros ? ?
  | |- local (_ ≫= _) => apply local_bind; [|intros ?]
  | |- local (if ?b then _ else _) => destruct b
  | |- local (match ?p with (_, _) => _ end) => destruct p
  | |- local (let (_, _) := ?p in _) => destruct p
  end.

Ltac local_auto := repeat local_step.

Lemma local_random_uniform a b : local (random_uniform a b).
Proof. unfold random_uniform. local_auto. Qed.

Lemma local_random_gauss mu sigma : local (random_gauss mu sigma).
Proof. unfold random_gauss. local_auto. Qed.

Lemma local_randbelow n : local (randbelow n).
Proof. unfold randbelow. local_auto. Qed.

Lemma local_random_sample2 pool : local (random_sample2 pool).
Proof.
  unfold random_sample2. local_step; [local_auto|].
  local_step; [apply local_randbelow|]. local_step; [local_auto|].
  local_step; [apply local_randbelow|]. local_auto.
Qed.

Lemma local_setitem {A} (l : list A) i x : local (setitem l i x).
Proof. unfold setitem. local_auto. Qed.

Lemma local_np_binop f x y : local (np_binop f x y).
Proof. unfold np_binop. local_auto. Qed.

Lemma local_np_scale s x : local (np_scale s x).
Proof. unfold np_scale. local_auto. Qed.

Lemma local_np_clip x a_min a_max : local (np_clip x a_min a_max).
Proof. unfold np_clip. local_auto. Qed.

Section Locality.
Variables (max_generations population_size : Z).
Variable bounds : list (Q * Q).
Variables (L_epm L_cpm : list Q).
Variables (P_epm P_prime_epm C_epm P_cpm P_prime_cpm C_cpm : Q).
Variables (V_du V_cu : list Q).
Variables (alpha beta T : Q).

Lemma local_init_population : local (init_population population_size bounds).
Proof.
  unfold init_population, init_individual, np_array.
  local_step. local_step; [|local_auto].
  local_step. apply local_random_uniform.
Qed.

Lemma local_evaluate_all B_t S_t population :
  local (evaluate_all L_epm L_cpm P_epm P_prime_epm C_epm
           P_cpm P_prime_cpm C_cpm V_du V_cu alpha beta T
           B_t S_t population).
Proof. unfold evaluate_all, evaluate. local_auto. Qed.

Lemma local_pollinate best population i :
  local (pollinate population_size bounds best population i).
Proof.
  unfold pollinate, np_sub, np_add.
  repeat first
    [ apply local_random_gauss | apply local_random_sample2
    | apply local_setitem | apply local_np_binop | apply local_np_scale
    | apply local_np_clip | local_step ].
Qed.

Lemma local_update_best st population fitness :
  local (update_best st population fitness).
Proof. unfold update_best. local_auto. Qed.

Lemma local_generation_step B_t S_t st g :
  local (generation_step population_size bounds L_epm L_cpm
           P_epm P_prime_epm C_epm P_cpm P_prime_cpm C_cpm
           V_du V_cu alpha beta T B_t S_t st g).
Proof.
  unfold generation_step.
  repeat first
    [ apply local_pollinate | apply local_evaluate_all
    | apply local_update_best | local_step ].
Qed.

Lemma local_initial_state :
  local (initial_state population_size bounds L_epm L_cpm
           P_epm P_prime_epm C_epm P_cpm P_prime_cpm C_cpm
           V_du V_cu alpha beta T).
Proof.
  unfold initial_state.
  repeat first
    [ apply local_init_population | apply local_evaluate_all | local_step ].
Qed.

Lemma local_flower_pollination_algorithm :
  local (flower_pollination_algorithm max_generations population_size
           bounds L_epm L_cpm P_epm P_prime_epm C_epm
           P_cpm P_prime_cpm C_cpm V_du V_cu alpha beta T).
Proof.
  unfold flower_pollination_algorithm, search.
  repeat first
    [ apply local_initial_state | apply local_generation_step | local_step ].
Qed.
End Locality.

(** ** Signs of the energy terms *)

Lemma Qplus_nonneg x y : (0 <= x)%Q -> (0 <= y)%Q -> (0 <= x + y)%Q.
Proof.
  intros Hx Hy. apply (Qle_trans _ (0 + 0)%Q); [discriminate|].
  apply Qplus_le_compat; assumption.
Qed.

Lemma indicator_nonneg b : (0 <= indicator b)%Q.
Proof. destruct b; simpl; discriminate. Qed.

Lemma processing_nonneg L P P' C T :
  Forall nonneg L -> (0 <= P)%Q -> (0 <= P')%Q -> (0 < C)%Q -> (0 <= T)%Q ->
  (0 <= np_sum (map (fun l => indicator (Qltb 0 l) * P + P' * (l / C)) L) * T)%Q.
Proof.
  intros HL HP HP' HC HT. apply Qmult_le_0_compat; [|exact HT].
  apply np_sum_nonneg. apply (map_Forall nonneg); [|exact HL].
  intros l Hl. apply Qplus_nonneg.
  - apply Qmult_le_0_compat; [apply indicator_nonneg|exact HP].
  - apply Qmult_le_0_compat; [exact HP'|].
    apply Qmult_le_0_compat; [exact Hl|].
    apply Qinv_le_0_compat, Qlt_le_weak, HC.
Qed.

Lemma weights_nonneg alpha beta V :
  (0 <= alpha)%Q -> (0 <= beta)%Q -> Forall nonneg V ->
  Forall nonneg (map (fun v => alpha * v + beta)%Q V).
Proof.
  intros Ha Hb HV. apply (map_Forall nonneg); [|exact HV].
  intros v Hv. apply Qplus_nonneg; [|exact Hb].
  apply Qmult_le_0_compat; assumption.
Qed.

Lemma transition_sum_nonneg M w q :
  all_entries unit_interval M -> Forall nonneg w ->
  transition_sum M w = Ok q -> (0 <= q)%Q.
Proof.
  intros HM Hw Hq.
  destruct (transition_sum_Forall unit_interval nonneg nonneg nonneg M w q)
    as (Y & -> & HY); [| |exact HM|exact Hw|exact Hq|].
  - intros x y [_ Hx] [Hy _]. apply Qmult_le_0_compat; [|exact Hy].
    unfold Qminus. rewrite <- Qle_minus_iff. exact Hx.
  - intros x y Hx Hy. apply Qmult_le_0_compat; assumption.
  - apply np_sum_nonneg, HY.
Qed.

Lemma normalize_entries P A_t : all_entries P A_t -> all_entries P (normalize A_t).
Proof.
  destruct A_t as [v|rows]; simpl; [|auto].
  intros H. apply (map_Forall P); [|exact H]. intros x Hx. repeat constructor.
  exact Hx.
Qed.

Lemma migration_epm_nonneg V_du alpha beta A_t q :
  (0 <= alpha)%Q -> (0 <= beta)%Q -> Forall nonneg V_du ->
  all_entries unit_interval A_t ->
  migration_epm V_du alpha beta A_t = Ok q -> (0 <= q)%Q.
Proof.
  intros Ha Hb HV HA. unfold migration_epm. simpl.
  destruct (1 <? shape0 (normalize A_t))%nat.
  - apply transition_sum_nonneg; [apply normalize_entries, HA|].
    apply weights_nonneg; assumption.
  - intros [= <-]. apply Qle_refl.
Qed.

Lemma migration_cpm_nonneg V_cu alpha beta B_t q :
  (0 <= alpha)%Q -> (0 <= beta)%Q -> Forall nonneg V_cu ->
  all_entries unit_interval B_t ->
  migration_cpm V_cu alpha beta B_t = Ok q -> (0 <= q)%Q.
Proof.
  intros Ha Hb HV HB. unfold migration_cpm.
  destruct (1 <? shape0 B_t)%nat.
  - destruct (shape1 B_t) as [c|]; simpl; [|discriminate].
    apply transition_sum_nonneg; [exact HB|].
    apply weights_nonneg; [assumption..|]. apply Forall_take, HV.
  - intros [= <-]. apply Qle_refl.
Qed.

(** ** The clip is the projection on the bounds *)

Lemma clip_vec_lookup bounds x d b p :
  bounds !! d = Some b -> x !! d = Some p ->
  clip_vec x (map fst bounds) (map snd bounds) !! d
  = Some (Qmin (Qmax p (fst b)) (snd b)).
Proof.
  intros Hb Hp. unfold clip_vec.
  rewrite !lookup_zip_with, Hp. simpl.
  change (map fst bounds) with (fst <$> bounds).
  change (map snd bounds) with (snd <$> bounds).
  rewrite !list_lookup_fmap, Hb. reflexivity.
Qed.

Lemma clipped_projected bounds w l :
  bounds_valid bounds -> clipped bounds w l -> projected bounds w l.
Proof.
  intros Hvalid (x & Hx & Hl). exists x. eexists. split; [exact Hl|].
  split; [exact Hx|]. split; [split|].
  - unfold clip_vec. rewrite !length_zip_with, !length_map. lia.
  - intros d lo hi v Hb Hv.
    destruct (lookup_lt_is_Some_2 x d) as [p Hp].
    { rewrite Hx. eauto using lookup_lt_Some. }
    rewrite (clip_vec_lookup _ _ _ _ _ Hb Hp) in Hv. injection Hv as <-.
    pose proof (Forall_lookup_1 _ _ _ _ Hvalid Hb) as Hlohi.
    pose proof (clip_nearest (lo, hi) p Hlohi) as E. simpl in E. rewrite E.
    exact (nearest_in (lo, hi) p Hlohi).
  - intros d b p Hb Hp. rewrite (clip_vec_lookup _ _ _ _ _ Hb Hp).
    rewrite clip_nearest; [reflexivity|].
    exact (Forall_lookup_1 _ _ _ _ Hvalid Hb).
Qed.

(** ** The update of the best record *)

Lemma update_best_cases st population fitness t w bf bs w' :
  update_best st population fitness t w = (Ok (bf, bs), w') ->
  (bf = best_fitness st /\ bs = best_solution st) \/
  (exists m, py_min fitness = Ok m /\ (m < best_fitness st)%Q /\ bf = m).
Proof.
  unfold update_best, mbind, M_bind, lift.
  destruct (py_min fitness) as [m|]; [|discriminate].
  destruct (Qltb m (best_fitness st)) eqn:E.
  - destruct (np_argmin fitness) as [i|]; [|discriminate].
    unfold getitem, lift. destruct (population !! i); simpl; [|discriminate].
    intros [= <- <- <-]. right. exists m.
    split; [reflexivity|]. split; [apply Qltb_lt, E|reflexivity].
  - intros [= <- <- <-]. left. auto.
Qed.

(** ** Outcomes of a run *)

Section Outcome.
Variables (max_generations population_size : Z).
Variable bounds : list (Q * Q).
Variables (L_epm L_cpm : list Q).
Variables (P_epm P_prime_epm C_epm P_cpm P_prime_cpm C_cpm : Q).
Variables (V_du V_cu : list Q).
Variables (alpha beta T : Q).

Local Abbreviation run_energy :=
  (run_energy bounds L_epm L_cpm P_epm P_prime_epm C_epm
     P_cpm P_prime_cpm C_cpm V_du V_cu alpha beta T).

Lemma search_outcome t w r w' :
  search max_generations population_size bounds L_epm L_cpm
    P_epm P_prime_epm C_epm P_cpm P_prime_cpm C_cpm
    V_du V_cu alpha beta T t w = (r, w') ->
  match r with
  | Ok (B_t, S_t, st) =>
      B_t = np_zeros (length bounds) 1 /\ S_t = np_ones (length bounds) 1 /\
      invariant population_size bounds run_energy w
        (Z.to_nat max_generations) st w'
  | Raise e => failure population_size e
  end.
Proof.
  intros E.
  pose proof (wp_run _ _ _ _ _ _ _
    (wp_search max_generations population_size bounds L_epm L_cpm
       P_epm P_prime_epm C_epm P_cpm P_prime_cpm C_cpm
       V_du V_cu alpha beta T t w) E) as H.
  destruct r as [[[B S] st]|e]; exact H.
Qed.

Lemma flower_pollination_algorithm_outcome t w r w' :
  flower_pollination_algorithm max_generations population_size bounds
    L_epm L_cpm P_epm P_prime_epm C_epm P_cpm P_prime_cpm C_cpm
    V_du V_cu alpha beta T t w = (r, w') ->
  match r with
  | Ok v => exists st w1,
      invariant population_size bounds run_energy w
        (Z.to_nat max_generations) st w1 /\
      v = [VRef (best_solution st); VFloat (best_fitness st)] /\
      w' = World (heap w1) (cursor w1) (stdout w1)
             (figures w1 ++ [convergence st])
  | Raise e => failure population_size e
  end.
Proof.
  intros E.
  pose proof (wp_run _ _ _ _ _ _ _
    (wp_flower_pollination_algorithm max_generations population_size
       bounds L_epm L_cpm P_epm P_prime_epm C_epm P_cpm P_prime_cpm C_cpm
       V_du V_cu alpha beta T t w) E) as H.
  destruct r as [v|e]; exact H.
Qed.
End Outcome.

(** * The claims *)

(** C1 (as amended).  A call with at least two individuals terminates
    normally after exactly [max_generations] generations, which print the
    lines numbered 1 to [max_generations]; it returns the pair
    [(best_solution, best_fitness)], not a triple.  The convergence history
    is the series handed to the plot: the initial best fitness followed by
    the best fitness printed by each generation, [max_generations + 1]
    entries in all, the last of which is the returned fitness. *)
Theorem flower_pollination_algorithm_terminates
  (max_generations population_size : Z) (bounds : list (Q * Q))
  (L_epm L_cpm : list Q)
  (P_epm P_prime_epm C_epm P_cpm P_prime_cpm C_cpm : Q)
  (V_du V_cu : list Q) (alpha beta T : Q) (t : tape) (w : world) :
  (2 <= population_size)%Z ->
  exists best fitness f0 lines w',
    flower_pollination_algorithm max_generations population_size bounds
      L_epm L_cpm P_epm P_prime_epm C_epm P_cpm P_prime_cpm C_cpm
      V_du V_cu alpha beta T t w
    = (Ok [VRef best; VFloat fitness], w') /\
    stdout w' = stdout w ++ lines /\
    map fst lines = seq 1 (Z.to_nat max_generations) /\
    figures w' = figures w ++ [f0 :: map snd lines] /\
    length (f0 :: map snd lines) = (Z.to_nat max_generations + 1)%nat /\
    last (f0 :: map snd lines) = Some fitness.
Proof.
  intros HP.
  destruct (flower_pollination_algorithm _ _ _ _ _ _ _ _ _ _ _ _ _ _ _ _ t w)
    as [r w'] eqn:E.
  pose proof (flower_pollination_algorithm_outcome _ _ _ _ _ _ _ _ _ _ _ _ _
                _ _ _ _ _ _ _ E) as H.
  destruct r as [v|e].
  - destruct H as (st & w1 & Hinv & -> & ->).
    destruct Hinv as (_ & _ & Hfig & _ & _ & _ & _ & _
                      & (f0 & lines & Hout & Hgen & Hconv) & Hlast & _).
    exists (best_solution st), (best_fitness st), f0, lines.
    eexists. split; [reflexivity|]. simpl.
    split; [exact Hout|]. split; [exact Hgen|].
    split; [rewrite Hfig, Hconv; reflexivity|].
    split; [|rewrite <- Hconv; exact Hlast].
    simpl. rewrite length_map, <- (length_map fst), Hgen, length_seq. lia.
  - destruct H as [[_ H]|[_ H]]; lia.
Qed.

Lemma flower_pollination_algorithm_terminates_witness :
  (2 <= 2)%Z /\
  exists best fitness f0 lines w',
    flower_pollination_algorithm 3 2 script_bounds [50; 60]%Q [70; 80]%Q
      200 50 100 300 60 120 [5; 10]%Q [15; 20]%Q (1 # 2) 10 1 tape_a fresh
    = (Ok [VRef best; VFloat fitness], w') /\
    stdout w' = stdout fresh ++ lines /\
    map fst lines = seq 1 (Z.to_nat 3) /\
    figures w' = figures fresh ++ [f0 :: map snd lines] /\
    length (f0 :: map snd lines) = (Z.to_nat 3 + 1)%nat /\
    last (f0 :: map snd lines) = Some fitness.
Proof.
  split; [lia|].
  apply (flower_pollination_algorithm_terminates 3 2 script_bounds). lia.
Defined.

(** C1 as stated fails: on the scenario of the script with one generation
    and two individuals the value returned is not a triple whose third item
    is a convergence history of [max_generations + 1] entries. *)
Lemma flower_pollination_algorithm_returns_no_triple :
  ~ exists best fitness history w',
      script_search 1 2 script_bounds tape_a fresh
      = (Ok [best; fitness; VList history], w') /\
      length history = (Z.to_nat 1 + 1)%nat.
Proof.
  intros (best & fitness & history & w' & E & _).
  vm_compute in E. discriminate E.
Qed.

(** C2 (as amended).  When the loads, powers, volumes, coefficients and the
    interval are non-negative, the capacities positive, and every entry of
    the candidate and of the migration context lies between 0 and 1, any
    energy the evaluator returns is non-negative; and it does return one for
    a flat candidate with a single-column context. *)
Theorem calculate_energy_total_nonnegative
  (L_epm L_cpm : list Q)
  (P_epm P_prime_epm C_epm P_cpm P_prime_cpm C_cpm : Q)
  (V_du V_cu : list Q) (alpha beta T : Q) (A_t B_t S_t : ndarray) :
  Forall nonneg L_epm -> Forall nonneg L_cpm ->
  (0 <= P_epm)%Q -> (0 <= P_prime_epm)%Q -> (0 < C_epm)%Q ->
  (0 <= P_cpm)%Q -> (0 <= P_prime_cpm)%Q -> (0 < C_cpm)%Q ->
  Forall nonneg V_du -> Forall nonneg V_cu ->
  (0 <= alpha)%Q -> (0 <= beta)%Q -> (0 <= T)%Q ->
  all_entries unit_interval A_t -> all_entries unit_interval B_t ->
  (forall e,
     calculate_energy_total L_epm L_cpm P_epm P_prime_epm C_epm
       P_cpm P_prime_cpm C_cpm V_du V_cu alpha beta T A_t B_t S_t = Ok e ->
     (0 <= e)%Q) /\
  (forall v rows, A_t = Arr1 v -> B_t = Arr2 rows -> column rows ->
     exists e,
       calculate_energy_total L_epm L_cpm P_epm P_prime_epm C_epm
         P_cpm P_prime_cpm C_cpm V_du V_cu alpha beta T A_t B_t S_t = Ok e /\
       (0 <= e)%Q).
Proof.
  intros HLe HLc HPe HPe' HCe HPc HPc' HCc HVd HVc Ha Hb HT HA HB.
  assert (Hsign : forall e,
    calculate_energy_total L_epm L_cpm P_epm P_prime_epm C_epm
      P_cpm P_prime_cpm C_cpm V_du V_cu alpha beta T A_t B_t S_t = Ok e ->
    (0 <= e)%Q).
  { intros e. unfold calculate_energy_total.
    destruct (migration_epm V_du alpha beta A_t) as [m|] eqn:Em;
      [|discriminate].
    destruct (migration_cpm V_cu alpha beta B_t) as [c|] eqn:Ec;
      [|discriminate].
    simpl. intros [= <-].
    repeat apply Qplus_nonneg.
    - apply processing_nonneg; assumption.
    - apply processing_nonneg; assumption.
    - eapply migration_epm_nonneg; [| | | |exact Em]; assumption.
    - eapply migration_cpm_nonneg; [| | | |exact Ec]; assumption. }
  split; [exact Hsign|].
  intros v rows -> -> Hcol.
  destruct (calculate_energy_total_flat_ok L_epm L_cpm P_epm P_prime_epm
              C_epm P_cpm P_prime_cpm C_cpm V_du V_cu alpha beta T
              v rows S_t Hcol) as [e He].
  exists e. split; [exact He|]. apply Hsign, He.
Qed.

Lemma calculate_energy_total_nonnegative_witness :
  (forall e, script_energy (Arr1 [0; 1; 0; 1]%Q) (np_zeros 4 1) (np_ones 4 1)
             = Ok e -> (0 <= e)%Q) /\
  (forall v rows, Arr1 [0; 1; 0; 1]%Q = Arr1 v -> np_zeros 4 1 = Arr2 rows ->
     column rows ->
     exists e, script_energy (Arr1 [0; 1; 0; 1]%Q) (np_zeros 4 1) (np_ones 4 1)
               = Ok e /\ (0 <= e)%Q).
Proof.
  apply (calculate_energy_total_nonnegative [50; 60]%Q [70; 80]%Q
           200 50 100 300 60 120 [5; 10]%Q [15; 20]%Q (1 # 2) 10 1
           (Arr1 [0; 1; 0; 1]%Q) (np_zeros 4 1) (np_ones 4 1));
    try (vm_compute; congruence);
    repeat constructor; vm_compute; congruence.
Defined.

(** C2 as stated fails: every number is non-negative and the capacities are
    positive, yet the energy of the candidate [100, 100] on the workload of
    the script is negative. *)
Lemma calculate_energy_total_negative :
  Forall nonneg [100; 100]%Q /\
  exists e,
    script_energy (Arr1 [100; 100]%Q) (Arr2 []) (Arr2 []) = Ok e /\
    (e < 0)%Q.
Proof.
  split; [repeat constructor; vm_compute; congruence|].
  eexists. split; [vm_compute; reflexivity|]. vm_compute. reflexivity.
Qed.

(** C3.  In every run that returns, the recorded convergence sequence (the
    series handed to the plot) never grows from one entry to the next: each
    entry is left as it is or goes strictly down.  The best record itself
    is replaced only when the minimum fitness of the generation is strictly
    below the current best fitness, and is otherwise kept, candidate and
    fitness alike. *)
Theorem convergence_is_nonincreasing
  (max_generations population_size : Z) (bounds : list (Q * Q))
  (L_epm L_cpm : list Q)
  (P_epm P_prime_epm C_epm P_cpm P_prime_cpm C_cpm : Q)
  (V_du V_cu : list Q) (alpha beta T : Q) (t : tape) (w : world)
  (v : list pyval) (w' : world) :
  flower_pollination_algorithm max_generations population_size bounds
    L_epm L_cpm P_epm P_prime_epm C_epm P_cpm P_prime_cpm C_cpm
    V_du V_cu alpha beta T t w = (Ok v, w') ->
  (exists history,
     figures w' = figures w ++ [history] /\
     nonincreasing history /\ descending history) /\
  (forall st population fitness t0 w0 bf bs w1,
     update_best st population fitness t0 w0 = (Ok (bf, bs), w1) ->
     (bf = best_fitness st /\ bs = best_solution st) \/
     (exists m, py_min fitness = Ok m /\ (m < best_fitness st)%Q /\ bf = m)).
Proof.
  intros E. split; [|apply update_best_cases].
  apply flower_pollination_algorithm_outcome in E
    as (st & w1 & Hinv & _ & ->).
  destruct Hinv as (_ & _ & Hfig & _ & _ & _ & _ & _ & _ & _ & Hdesc & _).
  exists (convergence st). simpl. rewrite Hfig.
  auto using descending_nonincreasing.
Qed.

Lemma convergence_is_nonincreasing_witness :
  exists v w',
    script_search 3 2 script_bounds tape_a fresh = (Ok v, w') /\
    exists history,
      figures w' = figures fresh ++ [history] /\
      nonincreasing history /\ descending history.
Proof.
  destruct (script_search 3 2 script_bounds tape_a fresh) as [[v|e] w'] eqn:E.
  - exists v, w'. split; [reflexivity|].
    exact (proj1 (convergence_is_nonincreasing 3 2 script_bounds
             [50; 60]%Q [70; 80]%Q 200 50 100 300 60 120
             [5; 10]%Q [15; 20]%Q (1 # 2) 10 1 tape_a fresh v w' E)).
  - exfalso. vm_compute in E. discriminate E.
Defined.

(** *** The loop body: a perturbation, then the clip of its result *)










(** C5 (as amended).  The optimizer does not look at its bounds before it
    searches: whatever the bounds, empty or with [low_i > high_i], a call
    with at least two individuals returns normally, and the only exceptions
    a call raises are the IndexError of an empty population
    ([population_size <= 0]) and the ValueError of sampling two individuals
    out of one ([population_size = 1]). *)
Theorem bounds_are_never_rejected
  (max_generations population_size : Z) (bounds : list (Q * Q))
  (L_epm L_cpm : list Q)
  (P_epm P_prime_epm C_epm P_cpm P_prime_cpm C_cpm : Q)
  (V_du V_cu : list Q) (alpha beta T : Q) (t : tape) (w : world)
  (r : result (list pyval)) (w' : world) :
  flower_pollination_algorithm max_generations population_size bounds
    L_epm L_cpm P_epm P_prime_epm C_epm P_cpm P_prime_cpm C_cpm
    V_du V_cu alpha beta T t w = (r, w') ->
  ((2 <= population_size)%Z -> exists v, r = Ok v) /\
  (forall e, r = Raise e -> failure population_size e).
Proof.
  intros E. apply flower_pollination_algorithm_outcome in E.
  destruct r as [v|e].
  - split; [eauto|]. intros e [=].
  - split.
    + intros HP. destruct E as [[_ H]|[_ H]]; lia.
    + intros e' [= <-]. exact E.
Qed.

Lemma bounds_are_never_rejected_witness :
  exists r w',
    script_search 1 2 [(1, 0)%Q] tape_a fresh = (r, w') /\
    ((2 <= 2)%Z -> exists v, r = Ok v) /\
    (forall e, r = Raise e -> failure 2 e).
Proof.
  destruct (script_search 1 2 [(1, 0)%Q] tape_a fresh) as [r w'] eqn:E.
  exists r, w'. split; [reflexivity|].
  exact (bounds_are_never_rejected 1 2 [(1, 0)%Q] [50; 60]%Q [70; 80]%Q
           200 50 100 300 60 120 [5; 10]%Q [15; 20]%Q (1 # 2) 10 1
           tape_a fresh r w' E).
Defined.

(** C5 as stated fails: with the pair [(1, 0)], whose low end is above its
    high end, and with no bounds at all, the call is not rejected; it
    allocates its population, runs its generation and returns. *)
Lemma invalid_bounds_are_accepted :
  (exists v w', script_search 1 2 [(1, 0)%Q] tape_a fresh = (Ok v, w') /\
     heap w' <> heap fresh /\ length (stdout w') = 1%nat) /\
  (exists v w', script_search 1 2 [] tape_a fresh = (Ok v, w') /\
     heap w' <> heap fresh /\ length (stdout w') = 1%nat).
Proof.
  split; eexists _, _; (split; [vm_compute; reflexivity|]);
    split; [discriminate|reflexivity|discriminate|reflexivity].
Qed.

(** C6.  For the two-row candidate [[0, 1]] with [alpha = 0.5],
    [beta = 10] and the class-E migration volume 5, the class-E migration
    term is [(1 - 0) * 1 * (0.5 * 5 + 10) = 12.5]; for the candidate
    [[1, 1]] it is 0.  With no load and a single-row context the first is
    also the total that [calculate_energy_total] returns. *)
Theorem migration_term_activation :
  (exists q, migration_epm [5%Q] (1 # 2) 10 (Arr1 [0; 1]%Q) = Ok q /\
     (q == 25 # 2)%Q) /\
  (exists q, migration_epm [5%Q] (1 # 2) 10 (Arr1 [1; 1]%Q) = Ok q /\
     (q == 0)%Q) /\
  (exists e,
     calculate_energy_total [] [] 0 0 1 0 0 1 [5%Q] [] (1 # 2) 10 1
       (Arr1 [0; 1]%Q) (Arr2 [[0%Q]]) (Arr2 [[1%Q]]) = Ok e /\
     (e == 25 # 2)%Q).
Proof.
  repeat split; eexists; (split; [vm_compute; reflexivity|reflexivity]).
Qed.

(** C7.  The outcome of a run is fixed by its inputs and by the draws it
    takes: if a run on one tape ends after [k] draws, the run with the same
    inputs on any tape with the same first [k] draws ends with the same
    returned value (best candidate and best fitness) or the same exception,
    in the same world (same arrays, same printed lines, same plotted
    convergence history). *)
Theorem flower_pollination_algorithm_deterministic
  (max_generations population_size : Z) (bounds : list (Q * Q))
  (L_epm L_cpm : list Q)
  (P_epm P_prime_epm C_epm P_cpm P_prime_cpm C_cpm : Q)
  (V_du V_cu : list Q) (alpha beta T : Q) (t1 t2 : tape) (w : world)
  (r : result (list pyval)) (w' : world) :
  flower_pollination_algorithm max_generations population_size bounds
    L_epm L_cpm P_epm P_prime_epm C_epm P_cpm P_prime_cpm C_cpm
    V_du V_cu alpha beta T t1 w = (r, w') ->
  agree_upto (cursor w') t1 t2 ->
  flower_pollination_algorithm max_generations population_size bounds
    L_epm L_cpm P_epm P_prime_epm C_epm P_cpm P_prime_cpm C_cpm
    V_du V_cu alpha beta T t2 w = (r, w').
Proof.
  intros E Hagree.
  exact (proj2 (local_flower_pollination_algorithm max_generations
                  population_size bounds L_epm L_cpm P_epm P_prime_epm C_epm
                  P_cpm P_prime_cpm C_cpm V_du V_cu alpha beta T
                  t1 t2 w r w' E) Hagree).
Qed.

Lemma flower_pollination_algorithm_deterministic_witness :
  exists r w',
    script_search 1 2 script_bounds tape_a fresh = (r, w') /\
    agree_upto (cursor w') tape_a tape_b /\
    script_search 1 2 script_bounds tape_b fresh = (r, w').
Proof.
  destruct (script_search 1 2 script_bounds tape_a fresh) as [r w'] eqn:E.
  assert (Hc : cursor w' = 12%nat).
  { pose proof E as E'. vm_compute in E'. injection E' as _ Hw.
    rewrite <- Hw. reflexivity. }
  assert (Hagree : agree_upto (cursor w') tape_a tape_b).
  { rewrite Hc. intros k Hk. unfold tape_b.
    destruct (k <? 30)%nat eqn:Ek; [reflexivity|].
    apply Nat.ltb_ge in Ek. lia. }
  exists r, w'. split; [reflexivity|]. split; [exact Hagree|].
  exact (flower_pollination_algorithm_deterministic 1 2 script_bounds
           [50; 60]%Q [70; 80]%Q 200 50 100 300 60 120
           [5; 10]%Q [15; 20]%Q (1 # 2) 10 1 tape_a tape_b fresh r w'
           E Hagree).
Defined.

(** C8.  The candidate enters the energy through the class-E migration
    term only: the energies of two candidates, all other inputs equal,
    differ by the difference of their class-E migration terms.  In a run the
    context is the all-zero column the optimizer builds, its class-C
    migration term is 0, and the energy of a candidate is the two
    processing terms plus its class-E migration term. *)
Theorem candidate_enters_through_migration_epm
  (L_epm L_cpm : list Q)
  (P_epm P_prime_epm C_epm P_cpm P_prime_cpm C_cpm : Q)
  (V_du V_cu : list Q) (alpha beta T : Q) (A_1 A_2 B_t S_t : ndarray)
  (e_1 e_2 : Q) :
  calculate_energy_total L_epm L_cpm P_epm P_prime_epm C_epm
    P_cpm P_prime_cpm C_cpm V_du V_cu alpha beta T A_1 B_t S_t = Ok e_1 ->
  calculate_energy_total L_epm L_cpm P_epm P_prime_epm C_epm
    P_cpm P_prime_cpm C_cpm V_du V_cu alpha beta T A_2 B_t S_t = Ok e_2 ->
  (exists m_1 m_2,
     migration_epm V_du alpha beta A_1 = Ok m_1 /\
     migration_epm V_du alpha beta A_2 = Ok m_2 /\
     (e_1 - e_2 == m_1 - m_2)%Q) /\
  (forall n, exists z,
     migration_cpm V_cu alpha beta (np_zeros n 1) = Ok z /\ (z == 0)%Q) /\
  (forall max_generations population_size bounds t w B S st w',
     search max_generations population_size bounds L_epm L_cpm
       P_epm P_prime_epm C_epm P_cpm P_prime_cpm C_cpm
       V_du V_cu alpha beta T t w = (Ok (B, S, st), w') ->
     B = np_zeros (length bounds) 1) /\
  (forall bounds a e,
     run_energy bounds L_epm L_cpm P_epm P_prime_epm C_epm
       P_cpm P_prime_cpm C_cpm V_du V_cu alpha beta T a = Ok e ->
     exists m,
       migration_epm V_du alpha beta (Arr1 a) = Ok m /\
       (e == E_processing_epm L_epm P_epm P_prime_epm C_epm T
             + E_processing_cpm L_cpm P_cpm P_prime_cpm C_cpm T + m)%Q).
Proof.
  intros E1 E2. split; [|split; [|split]].
  - unfold calculate_energy_total in E1, E2.
    destruct (migration_epm V_du alpha beta A_1) as [m_1|]; [|discriminate].
    destruct (migration_epm V_du alpha beta A_2) as [m_2|]; [|discriminate].
    destruct (migration_cpm V_cu alpha beta B_t) as [c|]; [|discriminate].
    simpl in E1, E2. injection E1 as <-. injection E2 as <-.
    exists m_1, m_2. split; [reflexivity|]. split; [reflexivity|]. ring.
  - intros n. apply migration_cpm_zeros.
  - intros max_generations population_size bounds t w B S st w' E.
    apply search_outcome in E as (HB & _). exact HB.
  - intros bounds a e. unfold run_energy, calculate_energy_total.
    destruct (migration_epm V_du alpha beta (Arr1 a)) as [m|]; [|discriminate].
    destruct (migration_cpm_zeros V_cu alpha beta (length bounds))
      as (z & -> & Hz).
    simpl. intros [= <-]. exists m. split; [reflexivity|].
    rewrite Hz. ring.
Qed.

Lemma candidate_enters_through_migration_epm_witness :
  exists e_1 e_2,
    script_energy (Arr1 [0; 1; 0; 1]%Q) (np_zeros 4 1) (np_ones 4 1)
    = Ok e_1 /\
    script_energy (Arr1 [1; 0; 0; 0]%Q) (np_zeros 4 1) (np_ones 4 1)
    = Ok e_2 /\
    exists m_1 m_2,
      migration_epm [5; 10]%Q (1 # 2) 10 (Arr1 [0; 1; 0; 1]%Q) = Ok m_1 /\
      migration_epm [5; 10]%Q (1 # 2) 10 (Arr1 [1; 0; 0; 0]%Q) = Ok m_2 /\
      (e_1 - e_2 == m_1 - m_2)%Q.
Proof.
  destruct (script_energy (Arr1 [0; 1; 0; 1]%Q) (np_zeros 4 1) (np_ones 4 1))
    as [e_1|x] eqn:E1; [|exfalso; vm_compute in E1; discriminate E1].
  destruct (script_energy (Arr1 [1; 0; 0; 0]%Q) (np_zeros 4 1) (np_ones 4 1))
    as [e_2|x] eqn:E2; [|exfalso; vm_compute in E2; discriminate E2].
  exists e_1, e_2. split; [reflexivity|]. split; [reflexivity|].
  exact (proj1 (candidate_enters_through_migration_epm
                  [50; 60]%Q [70; 80]%Q 200 50 100 300 60 120
                  [5; 10]%Q [15; 20]%Q (1 # 2) 10 1
                  (Arr1 [0; 1; 0; 1]%Q) (Arr1 [1; 0; 0; 0]%Q)
                  (np_zeros 4 1) (np_ones 4 1) e_1 e_2 E1 E2)).
Defined.

(** C9.  When a run returns, the returned candidate and the returned
    fitness agree: the array the returned reference points to, evaluated in
    the final world with the context of the run, gives exactly the returned
    fitness.  Arrays are only ever allocated, never written, so every array
    of the initial world is still there unchanged, and so is every array
    recorded as best on the way. *)
Theorem best_solution_matches_best_fitness
  (max_generations population_size : Z) (bounds : list (Q * Q))
  (L_epm L_cpm : list Q)
  (P_epm P_prime_epm C_epm P_cpm P_prime_cpm C_cpm : Q)
  (V_du V_cu : list Q) (alpha beta T : Q) (t : tape) (w : world)
  (v : list pyval) (w' : world) :
  flower_pollination_algorithm max_generations population_size bounds
    L_epm L_cpm P_epm P_prime_epm C_epm P_cpm P_prime_cpm C_cpm
    V_du V_cu alpha beta T t w = (Ok v, w') ->
  exists best fitness a,
    v = [VRef best; VFloat fitness] /\
    heap w' !! best = Some a /\
    calculate_energy_total L_epm L_cpm P_epm P_prime_epm C_epm
      P_cpm P_prime_cpm C_cpm V_du V_cu alpha beta T (Arr1 a)
      (np_zeros (length bounds) 1) (np_ones (length bounds) 1) = Ok fitness /\
    (forall t',
       evaluate L_epm L_cpm P_epm P_prime_epm C_epm P_cpm P_prime_cpm C_cpm
         V_du V_cu alpha beta T
         (np_zeros (length bounds) 1) (np_ones (length bounds) 1)
         best t' w' = (Ok fitness, w')) /\
    heap w `prefix_of` heap w'.
Proof.
  intros E.
  apply flower_pollination_algorithm_outcome in E
    as (st & w1 & Hinv & -> & ->).
  destruct Hinv as (Hheap & _ & _ & _ & _ & _ & _ & (a & Ha & He) & _).
  exists (best_solution st), (best_fitness st), a.
  split; [reflexivity|]. split; [exact Ha|]. split; [exact He|].
  split; [|exact Hheap].
  intros t'. apply (evaluate_run bounds) with (a := a); [exact Ha|exact He].
Qed.

Lemma best_solution_matches_best_fitness_witness :
  exists v w',
    script_search 2 3 script_bounds tape_a fresh = (Ok v, w') /\
    exists best fitness a,
      v = [VRef best; VFloat fitness] /\
      heap w' !! best = Some a /\
      script_energy (Arr1 a) (np_zeros (length script_bounds) 1)
        (np_ones (length script_bounds) 1) = Ok fitness /\
      (forall t',
         evaluate [50; 60]%Q [70; 80]%Q 200 50 100 300 60 120
           [5; 10]%Q [15; 20]%Q (1 # 2) 10 1
           (np_zeros (length script_bounds) 1)
           (np_ones (length script_bounds) 1)
           best t' w' = (Ok fitness, w')) /\
      heap fresh `prefix_of` heap w'.
Proof.
  destruct (script_search 2 3 script_bounds tape_a fresh)
    as [[v|e] w'] eqn:E.
  - exists v, w'. split; [reflexivity|].
    exact (best_solution_matches_best_fitness 2 3 script_bounds
             [50; 60]%Q [70; 80]%Q 200 50 100 300 60 120
             [5; 10]%Q [15; 20]%Q (1 # 2) 10 1 tape_a fresh v w' E).
  - exfalso. vm_compute in E. discriminate E.
Defined.

(** C10.  The parameter [S_t] of [calculate_energy_total] has no effect:
    with all other inputs equal, any two values of [S_t] give the same
    outcome, energy or exception. *)
Theorem calculate_energy_total_ignores_S_t
  (L_epm L_cpm : list Q)
  (P_epm P_prime_epm C_epm P_cpm P_prime_cpm C_cpm : Q)
  (V_du V_cu : list Q) (alpha beta T : Q) (A_t B_t S_1 S_2 : ndarray) :
  calculate_energy_total L_epm L_cpm P_epm P_prime_epm C_epm
    P_cpm P_prime_cpm C_cpm V_du V_cu alpha beta T A_t B_t S_1
  = calculate_energy_total L_epm L_cpm P_epm P_prime_epm C_epm
      P_cpm P_prime_cpm C_cpm V_du V_cu alpha beta T A_t B_t S_2.
Proof. reflexivity. Qed.


(** * Further properties of the evaluator *)

Lemma np_sum_app u v : (np_sum (u ++ v) == np_sum u + np_sum v)%Q.
Proof.
  induction u as [|x u IH]; simpl; [ring|]. rewrite IH. ring.
Qed.

Lemma np_sum_scale x w : (np_sum (map (Qmult x) w) == x * np_sum w)%Q.
Proof.
  induction w as [|y w IH]; simpl; [ring|]. rewrite IH. ring.
Qed.

Lemma broadcast2_singleton_sum x w r :
  broadcast2 Qmult [x] w = Ok r -> (np_sum r == x * np_sum w)%Q.
Proof.
  unfold broadcast2. destruct (length [x] =? length w)%nat eqn:E.
  - destruct w as [|y [|y' w]]; try discriminate E.
    intros [= <-]. simpl. ring.
  - intros [= <-]. apply np_sum_scale.
Qed.

Lemma but_last_as_column v : but_last (as_column v) = as_column (but_last v).
Proof.
  unfold but_last, as_column. rewrite length_map. apply firstn_map.
Qed.

Lemma from_1_as_column v : from_1 (as_column v) = as_column (from_1 v).
Proof. unfold from_1, as_column. apply skipn_map. Qed.

Lemma broadcast_rows_as_column (g : Q -> Q) A B :
  broadcast_rows Qmult (map (map g) (as_column A)) (as_column B)
  = Ok (as_column (zip_with (fun a b => g a * b)%Q A B)).
Proof.
  revert B. induction A as [|a A IH]; intros [|b B]; simpl; try reflexivity.
  rewrite IH. reflexivity.
Qed.

Lemma for_each_as_column_sum xs w :
  exists Y, for_each (fun r => broadcast2 Qmult r w) (as_column xs) = Ok Y /\
    (np_sum2 Y == np_sum xs * np_sum w)%Q.
Proof.
  induction xs as [|x xs (Y & HY & Hsum)]; simpl.
  { exists []. split; [reflexivity|]. unfold np_sum2. simpl. ring. }
  destruct (broadcast2_singleton Qmult x w) as [r Hr].
  rewrite Hr, HY. simpl. exists (r :: Y). split; [reflexivity|].
  unfold np_sum2 in *. simpl. rewrite np_sum_app, Hsum.
  rewrite (broadcast2_singleton_sum x w r Hr). ring.
Qed.

Lemma pair_terms_short v : (length v <= 1)%nat -> pair_terms v = [].
Proof. destruct v as [|a [|b v]]; simpl; [reflexivity..|lia]. Qed.

(** The class-E migration term of a flat candidate is the sum of its pair
    terms times the sum of all the weights. *)
Lemma migration_epm_flat V_du alpha beta v :
  exists q, migration_epm V_du alpha beta (Arr1 v) = Ok q /\
    (q == np_sum (pair_terms v) * np_sum (weights alpha beta V_du))%Q.
Proof.
  unfold migration_epm. simpl.
  destruct (1 <? length (as_column v))%nat eqn:E.
  - rewrite but_last_as_column, from_1_as_column, broadcast_rows_as_column.
    simpl.
    destruct (for_each_as_column_sum
                (zip_with (fun a b => (1 - a) * b)%Q (but_last v) (from_1 v))
                (weights alpha beta V_du)) as (Y & HY & Hsum).
    unfold weights in HY. rewrite HY. simpl. exists (np_sum2 Y).
    split; [reflexivity|exact Hsum].
  - exists 0%Q. split; [reflexivity|].
    apply Nat.ltb_ge in E. unfold as_column in E. rewrite length_map in E.
    rewrite pair_terms_short by exact E. simpl. ring.
Qed.

Lemma pair_terms_cons a b r :
  pair_terms (a :: b :: r) = ((1 - a) * b)%Q :: pair_terms (b :: r).
Proof.
  unfold pair_terms, but_last, from_1. simpl.
  rewrite Nat.sub_0_r. reflexivity.
Qed.

Lemma pair_terms_count v :
  Forall binary v ->
  (np_sum (pair_terms v) == inject_Z (Z.of_nat (transitions v)))%Q.
Proof.
  induction v as [|a v IH]; intros Hv; [reflexivity|].
  destruct v as [|b r]; [reflexivity|].
  rewrite pair_terms_cons.
  inversion Hv as [|? ? Ha Hv']; subst.
  pose proof (Forall_inv Hv') as Hb.
  change (np_sum (((1 - a) * b)%Q :: pair_terms (b :: r)))
    with ((1 - a) * b + np_sum (pair_terms (b :: r)))%Q.
  rewrite (IH Hv').
  change (transitions (a :: b :: r))
    with ((if Qeq_bool a 0 && Qeq_bool b 1 then 1 else 0)
          + transitions (b :: r))%nat.
  rewrite Nat2Z.inj_add, inject_Z_plus.
  apply Qplus_comp; [|reflexivity].
  destruct Ha as [Ha|Ha], Hb as [Hb|Hb]; rewrite Ha, Hb; reflexivity.
Qed.

Lemma run_energy_split bounds L_epm L_cpm P_epm P_prime_epm C_epm
  P_cpm P_prime_cpm C_cpm V_du V_cu alpha beta T a :
  exists e m,
    run_energy bounds L_epm L_cpm P_epm P_prime_epm C_epm
      P_cpm P_prime_cpm C_cpm V_du V_cu alpha beta T a = Ok e /\
    migration_epm V_du alpha beta (Arr1 a) = Ok m /\
    (e == E_processing_epm L_epm P_epm P_prime_epm C_epm T
          + E_processing_cpm L_cpm P_cpm P_prime_cpm C_cpm T + m)%Q.
Proof.
  unfold run_energy, calculate_energy_total.
  destruct (migration_epm_flat_ok V_du alpha beta a) as [m Hm].
  destruct (migration_cpm_zeros V_cu alpha beta (length bounds))
    as (z & Hz & Hz0).
  rewrite Hm, Hz. simpl. eexists _, m. split; [reflexivity|].
  split; [reflexivity|]. rewrite Hz0. ring.
Qed.

Lemma pair_terms_zeros k : Forall (fun x => x == 0)%Q (pair_terms (repeat 0%Q k)).
Proof.
  unfold pair_terms.
  apply (zip_with_Forall (fun _ => True) (fun x => x == 0)%Q).
  - intros x y _ ->. ring.
  - apply Forall_forall. auto.
  - unfold from_1. apply Forall_drop, repeat_Forall. reflexivity.
Qed.

Lemma processing_zero_interval L P P' C T :
  (T == 0)%Q ->
  (np_sum (map (fun l => indicator (Qltb 0 l) * P + P' * (l / C)) L) * T
   == 0)%Q.
Proof. intros ->. ring. Qed.

Lemma processing_zero_loads L P P' C T :
  Forall (fun l => l == 0)%Q L ->
  (np_sum (map (fun l => indicator (Qltb 0 l) * P + P' * (l / C)) L) * T
   == 0)%Q.
Proof.
  intros HL. rewrite np_sum_zero; [ring|].
  apply (map_Forall (fun l => l == 0)%Q); [|exact HL].
  intros l Hl.
  assert (E : Qltb 0 l = false).
  { apply Qltb_ge. rewrite Hl. apply Qle_refl. }
  rewrite E. simpl. unfold Qdiv. rewrite Hl. ring.
Qed.

(** *** Shapes that broadcast and shapes that do not *)

Lemma broadcast2_compatible f a b :
  compatible (length a) (length b) -> exists r, broadcast2 f a b = Ok r.
Proof.
  intros [H|[H|H]].
  - rewrite broadcast2_same_length by exact H. eauto.
  - destruct a as [|x [|? ?]]; try discriminate H.
    apply broadcast2_singleton.
  - destruct b as [|y [|? ?]]; try discriminate H.
    unfold broadcast2. destruct (length a =? length [y])%nat; [eauto|].
    destruct a as [|x [|? ?]]; eauto.
Qed.

Lemma broadcast2_incompatible f a b :
  ~ compatible (length a) (length b) -> broadcast2 f a b = Raise ValueError.
Proof.
  intros H. unfold compatible in H. unfold broadcast2.
  destruct (length a =? length b)%nat eqn:E.
  { apply Nat.eqb_eq in E. tauto. }
  destruct a as [|x [|x' a]]; destruct b as [|y [|y' b]];
    simpl in *; try reflexivity; exfalso; apply H; auto.
Qed.

Lemma broadcast_rows_rectangular f c X Y :
  rectangular c X -> rectangular c Y ->
  exists Z, broadcast_rows f X Y = Ok Z /\ rectangular c Z /\
    length Z = (length X `min` length Y)%nat.
Proof.
  intros HX. revert Y. induction HX as [|x X Hx _ IH]; intros Y HY; simpl.
  { exists []. repeat split. constructor. }
  destruct HY as [|y Y Hy HY].
  { exists []. repeat split. constructor. }
  destruct (IH Y HY) as (Z & -> & HZ & Hlen).
  rewrite broadcast2_same_length by congruence. simpl.
  eexists. split; [reflexivity|]. split.
  - constructor; [|exact HZ]. rewrite length_zip_with. lia.
  - simpl. rewrite Hlen. reflexivity.
Qed.

Lemma for_each_broadcast2_compatible f c X w :
  rectangular c X -> compatible c (length w) ->
  exists Y, for_each (fun r => broadcast2 f r w) X = Ok Y.
Proof.
  intros HX Hc. induction HX as [|x X Hx _ (Y & HY)]; simpl; [eauto|].
  destruct (broadcast2_compatible f x w) as [r ->]; [rewrite Hx; exact Hc|].
  rewrite HY. simpl. eauto.
Qed.

Lemma for_each_broadcast2_incompatible f c X w :
  rectangular c X -> X <> [] -> ~ compatible c (length w) ->
  for_each (fun r => broadcast2 f r w) X = Raise ValueError.
Proof.
  intros HX Hne Hc. destruct HX as [|x X Hx _]; [congruence|]. simpl.
  rewrite broadcast2_incompatible by (rewrite Hx; exact Hc). reflexivity.
Qed.

Lemma rectangular_map g c rows :
  rectangular c rows -> rectangular c (map (map g) rows).
Proof.
  induction 1 as [|r rows Hr _ IH]; simpl; constructor; [|exact IH].
  rewrite length_map. exact Hr.
Qed.

(** The transition sum of an array of [c] columns and two rows or more is
    defined exactly when [c] and the number of weights broadcast. *)
Lemma transition_sum_rectangular c rows w :
  rectangular c rows -> (2 <= length rows)%nat ->
  (compatible c (length w) -> exists q, transition_sum (Arr2 rows) w = Ok q) /\
  (~ compatible c (length w) ->
   transition_sum (Arr2 rows) w = Raise ValueError).
Proof.
  intros Hrect Hlen. simpl.
  destruct (broadcast_rows_rectangular Qmult c
              (map (map (fun a => 1 - a)%Q) (but_last rows)) (from_1 rows))
    as (X & -> & HX & HlenX).
  { apply rectangular_map. unfold but_last. apply Forall_take, Hrect. }
  { unfold from_1. apply Forall_drop, Hrect. }
  assert (Hne : X <> []).
  { intros ->. simpl in HlenX. unfold but_last, from_1 in HlenX.
    rewrite length_map, length_take, length_drop in HlenX. lia. }
  simpl. split; intros Hc.
  - destruct (for_each_broadcast2_compatible Qmult c X w HX Hc) as [Y ->].
    simpl. eauto.
  - rewrite (for_each_broadcast2_incompatible Qmult c X w HX Hne Hc).
    reflexivity.
Qed.

Lemma shape1_rectangular c rows :
  rectangular c rows -> rows <> [] -> shape1 (Arr2 rows) = Ok c.
Proof.
  intros H Hne. destruct H as [|r rows Hr _]; [congruence|].
  simpl. rewrite Hr. reflexivity.
Qed.

(** X1.  The fitness the search minimises, in closed form: in the context
    the optimizer fixes, the energy of a flat candidate is always defined
    and equals the two processing terms plus the sum of the pair terms
    [(1 - a[t-1]) * a[t]] times the sum of all the weights
    [alpha * V_du[j] + beta]; every transition is charged once for each
    entry of [V_du]. *)
Theorem run_energy_closed_form
  (bounds : list (Q * Q)) (L_epm L_cpm : list Q)
  (P_epm P_prime_epm C_epm P_cpm P_prime_cpm C_cpm : Q)
  (V_du V_cu : list Q) (alpha beta T : Q) (a : list Q) :
  exists e,
    run_energy bounds L_epm L_cpm P_epm P_prime_epm C_epm
      P_cpm P_prime_cpm C_cpm V_du V_cu alpha beta T a = Ok e /\
    (e == E_processing_epm L_epm P_epm P_prime_epm C_epm T
          + E_processing_cpm L_cpm P_cpm P_prime_cpm C_cpm T
          + np_sum (pair_terms a) * np_sum (weights alpha beta V_du))%Q.
Proof.
  destruct (run_energy_split bounds L_epm L_cpm P_epm P_prime_epm C_epm
              P_cpm P_prime_cpm C_cpm V_du V_cu alpha beta T a)
    as (e & m & He & Hm & Hsplit).
  destruct (migration_epm_flat V_du alpha beta a) as (q & Hq & Hfact).
  rewrite Hm in Hq. injection Hq as <-.
  exists e. split; [exact He|]. rewrite Hsplit, Hfact. reflexivity.
Qed.

(** X2.  For a flat candidate of zeros and ones the class-E migration term
    is the number of rows at which the candidate goes from 0 to 1, times the
    sum of the weights [alpha * V_du[j] + beta]. *)
Theorem migration_epm_counts_transitions
  (V_du : list Q) (alpha beta : Q) (v : list Q) :
  Forall binary v ->
  exists q,
    migration_epm V_du alpha beta (Arr1 v) = Ok q /\
    (q == inject_Z (Z.of_nat (transitions v))
          * np_sum (weights alpha beta V_du))%Q.
Proof.
  intros Hv. destruct (migration_epm_flat V_du alpha beta v) as (q & Hq & Hfact).
  exists q. split; [exact Hq|].
  rewrite Hfact, (pair_terms_count v Hv). reflexivity.
Qed.

Lemma migration_epm_counts_transitions_witness :
  Forall binary [0; 1; 0; 1]%Q /\
  exists q,
    migration_epm [5; 10]%Q (1 # 2) 10 (Arr1 [0; 1; 0; 1]%Q) = Ok q /\
    (q == inject_Z (Z.of_nat (transitions [0; 1; 0; 1]%Q))
          * np_sum (weights (1 # 2) 10 [5; 10]%Q))%Q.
Proof.
  assert (H : Forall binary [0; 1; 0; 1]%Q).
  { apply Forall_cons_2; [left; reflexivity|].
    apply Forall_cons_2; [right; reflexivity|].
    apply Forall_cons_2; [left; reflexivity|].
    apply Forall_cons_2; [right; reflexivity|]. apply Forall_nil_2. }
  split; [exact H|].
  exact (migration_epm_counts_transitions [5; 10]%Q (1 # 2) 10
           [0; 1; 0; 1]%Q H).
Defined.

(** X3.  Among the candidates whose entries lie between 0 and 1, the
    all-zero candidate has the least energy: with non-negative migration
    coefficients and volumes, its energy is the processing energy alone and
    no such candidate of the same dimension has a lower one. *)
Theorem all_zero_candidate_is_minimal
  (bounds : list (Q * Q)) (L_epm L_cpm : list Q)
  (P_epm P_prime_epm C_epm P_cpm P_prime_cpm C_cpm : Q)
  (V_du V_cu : list Q) (alpha beta T : Q) (a : list Q) :
  Forall unit_interval a ->
  (0 <= alpha)%Q -> (0 <= beta)%Q -> Forall nonneg V_du ->
  exists e_0 e,
    run_energy bounds L_epm L_cpm P_epm P_prime_epm C_epm
      P_cpm P_prime_cpm C_cpm V_du V_cu alpha beta T
      (repeat 0%Q (length a)) = Ok e_0 /\
    run_energy bounds L_epm L_cpm P_epm P_prime_epm C_epm
      P_cpm P_prime_cpm C_cpm V_du V_cu alpha beta T a = Ok e /\
    (e_0 == E_processing_epm L_epm P_epm P_prime_epm C_epm T
            + E_processing_cpm L_cpm P_cpm P_prime_cpm C_cpm T)%Q /\
    (e_0 <= e)%Q.
Proof.
  intros Ha Halpha Hbeta HV.
  destruct (run_energy_split bounds L_epm L_cpm P_epm P_prime_epm C_epm
              P_cpm P_prime_cpm C_cpm V_du V_cu alpha beta T
              (repeat 0%Q (length a)))
    as (e_0 & m_0 & He_0 & Hm_0 & Hsplit_0).
  destruct (run_energy_split bounds L_epm L_cpm P_epm P_prime_epm C_epm
              P_cpm P_prime_cpm C_cpm V_du V_cu alpha beta T a)
    as (e & m & He & Hm & Hsplit).
  assert (Hzero : (m_0 == 0)%Q).
  { destruct (migration_epm_flat V_du alpha beta (repeat 0%Q (length a)))
      as (q & Hq & Hfact).
    rewrite Hm_0 in Hq. injection Hq as <-.
    rewrite Hfact, (np_sum_zero _ (pair_terms_zeros (length a))). ring. }
  assert (Hpos : (0 <= m)%Q).
  { exact (migration_epm_nonneg V_du alpha beta (Arr1 a) m
             Halpha Hbeta HV Ha Hm). }
  exists e_0, e. split; [exact He_0|]. split; [exact He|].
  split; [rewrite Hsplit_0, Hzero; ring|].
  rewrite Hsplit_0, Hsplit, Hzero.
  rewrite Qplus_0_r. rewrite <- (Qplus_0_r (_ + _)) at 1.
  apply Qplus_le_compat; [apply Qle_refl|exact Hpos].
Qed.

Lemma all_zero_candidate_is_minimal_witness :
  exists e_0 e,
    script_energy (Arr1 (repeat 0%Q (length [1; 0; 1; 1]%Q)))
      (np_zeros (length script_bounds) 1) (np_ones (length script_bounds) 1)
    = Ok e_0 /\
    script_energy (Arr1 [1; 0; 1; 1]%Q)
      (np_zeros (length script_bounds) 1) (np_ones (length script_bounds) 1)
    = Ok e /\
    (e_0 == E_processing_epm [50; 60]%Q 200 50 100 1
            + E_processing_cpm [70; 80]%Q 300 60 120 1)%Q /\
    (e_0 <= e)%Q.
Proof.
  apply (all_zero_candidate_is_minimal script_bounds [50; 60]%Q [70; 80]%Q
           200 50 100 300 60 120 [5; 10]%Q [15; 20]%Q (1 # 2) 10 1
           [1; 0; 1; 1]%Q);
    try (vm_compute; congruence);
    repeat constructor; vm_compute; congruence.
Defined.

(** X4.  With positive capacities and a candidate and a context of one row
    at most, no migration is charged: the energy is the processing energy,
    whatever the values in the candidate and whatever the migration volumes
    and coefficients.  It is zero when the interval [T] is zero, and when
    all the loads are. *)
Theorem single_row_energy_is_processing_energy
  (L_epm L_cpm : list Q)
  (P_epm P_prime_epm C_epm P_cpm P_prime_cpm C_cpm : Q)
  (V_du V_cu : list Q) (alpha beta T : Q) (A_t B_t S_t : ndarray) :
  (0 < C_epm)%Q -> (0 < C_cpm)%Q ->
  (shape0 A_t <= 1)%nat -> (shape0 B_t <= 1)%nat ->
  exists e,
    calculate_energy_total L_epm L_cpm P_epm P_prime_epm C_epm
      P_cpm P_prime_cpm C_cpm V_du V_cu alpha beta T A_t B_t S_t = Ok e /\
    (e == E_processing_epm L_epm P_epm P_prime_epm C_epm T
          + E_processing_cpm L_cpm P_cpm P_prime_cpm C_cpm T)%Q /\
    ((T == 0)%Q -> (e == 0)%Q) /\
    (Forall (fun l => l == 0)%Q L_epm -> Forall (fun l => l == 0)%Q L_cpm ->
     (e == 0)%Q).
Proof.
  intros _ _ HA HB.
  unfold calculate_energy_total, migration_epm, migration_cpm.
  assert (EA : (1 <? shape0 (normalize A_t))%nat = false).
  { apply Nat.ltb_ge. destruct A_t as [v|rows]; simpl in *; [|exact HA].
    unfold as_column. rewrite length_map. exact HA. }
  assert (EB : (1 <? shape0 B_t)%nat = false) by (apply Nat.ltb_ge; exact HB).
  simpl. rewrite EA, EB. simpl. eexists. split; [reflexivity|].
  split; [ring|]. unfold E_processing_epm, E_processing_cpm. split.
  - intros HT. rewrite !(processing_zero_interval _ _ _ _ _ HT). ring.
  - intros He Hc.
    rewrite (processing_zero_loads _ _ _ _ _ He),
      (processing_zero_loads _ _ _ _ _ Hc). ring.
Qed.

Lemma single_row_energy_is_processing_energy_witness :
  (0 < 100)%Q /\ (0 < 120)%Q /\
  (shape0 (Arr1 [7%Q]) <= 1)%nat /\ (shape0 (Arr2 [[3%Q; 4%Q]]) <= 1)%nat /\
  exists e,
    script_energy (Arr1 [7%Q]) (Arr2 [[3%Q; 4%Q]]) (Arr2 []) = Ok e /\
    (e == E_processing_epm [50; 60]%Q 200 50 100 1
          + E_processing_cpm [70; 80]%Q 300 60 120 1)%Q /\
    ((1 == 0)%Q -> (e == 0)%Q) /\
    (Forall (fun l => l == 0)%Q [50; 60]%Q ->
     Forall (fun l => l == 0)%Q [70; 80]%Q -> (e == 0)%Q).
Proof.
  split; [reflexivity|]. split; [reflexivity|].
  split; [simpl; lia|]. split; [simpl; lia|].
  apply (single_row_energy_is_processing_energy [50; 60]%Q [70; 80]%Q
           200 50 100 300 60 120 [5; 10]%Q [15; 20]%Q (1 # 2) 10 1
           (Arr1 [7%Q]) (Arr2 [[3%Q; 4%Q]]) (Arr2 []));
    [reflexivity|reflexivity|simpl; lia|simpl; lia].
Defined.

(** X5.  The class-C volumes are cut to the number of columns of the
    migration context, which only helps when there are too many of them: for
    a context of [c] columns and two rows or more, the energy of a flat
    candidate is defined when [V_cu] has at least [c] entries (or a single
    one, or [c = 1]), and evaluation raises a ValueError when [V_cu] has
    fewer entries than [c], unless one of the two numbers is 1. *)
Theorem class_C_volumes_are_truncated_not_padded
  (L_epm L_cpm : list Q)
  (P_epm P_prime_epm C_epm P_cpm P_prime_cpm C_cpm : Q)
  (V_du V_cu : list Q) (alpha beta T : Q) (v : list Q) (c : nat)
  (rows : list (list Q)) (S_t : ndarray) :
  rectangular c rows -> (2 <= length rows)%nat ->
  ((c <= length V_cu)%nat \/ c = 1%nat \/ length V_cu = 1%nat ->
   exists e,
     calculate_energy_total L_epm L_cpm P_epm P_prime_epm C_epm
       P_cpm P_prime_cpm C_cpm V_du V_cu alpha beta T
       (Arr1 v) (Arr2 rows) S_t = Ok e) /\
  ((length V_cu < c)%nat -> c <> 1%nat -> length V_cu <> 1%nat ->
   calculate_energy_total L_epm L_cpm P_epm P_prime_epm C_epm
     P_cpm P_prime_cpm C_cpm V_du V_cu alpha beta T
     (Arr1 v) (Arr2 rows) S_t = Raise ValueError).
Proof.
  intros Hrect Hlen.
  assert (Hne : rows <> []) by (intros ->; simpl in Hlen; lia).
  assert (Hbranch : (1 <? shape0 (Arr2 rows))%nat = true).
  { apply Nat.ltb_lt. simpl. lia. }
  destruct (transition_sum_rectangular c rows
              (map (fun x => alpha * x + beta)%Q (take c V_cu)) Hrect Hlen)
    as [Hok Herr].
  rewrite length_map, length_take in Hok, Herr.
  destruct (migration_epm_flat_ok V_du alpha beta v) as [m Hm].
  unfold calculate_energy_total, migration_cpm.
  rewrite Hm, Hbranch, (shape1_rectangular c rows Hrect Hne). simpl.
  split.
  - intros H. destruct Hok as [q Hq].
    { unfold compatible. lia. }
    simpl in Hq. rewrite Hq. simpl. eauto.
  - intros H1 H2 H3. simpl in Herr. rewrite Herr; [reflexivity|].
    unfold compatible. lia.
Qed.

Lemma class_C_volumes_are_truncated_not_padded_witness :
  rectangular 3 [[0; 1; 0]; [1; 0; 1]]%Q /\
  (2 <= length [[0; 1; 0]; [1; 0; 1]]%Q)%nat /\
  ((3 <= length [15; 20]%Q)%nat \/ 3%nat = 1%nat \/
   length [15; 20]%Q = 1%nat ->
   exists e,
     script_energy (Arr1 [0; 1]%Q) (Arr2 [[0; 1; 0]; [1; 0; 1]]%Q) (Arr2 [])
     = Ok e) /\
  ((length [15; 20]%Q < 3)%nat -> 3%nat <> 1%nat ->
   length [15; 20]%Q <> 1%nat ->
   script_energy (Arr1 [0; 1]%Q) (Arr2 [[0; 1; 0]; [1; 0; 1]]%Q) (Arr2 [])
   = Raise ValueError).
Proof.
  assert (H : rectangular 3 [[0; 1; 0]; [1; 0; 1]]%Q).
  { repeat constructor. }
  split; [exact H|]. split; [simpl; lia|].
  apply (class_C_volumes_are_truncated_not_padded [50; 60]%Q [70; 80]%Q
           200 50 100 300 60 120 [5; 10]%Q [15; 20]%Q (1 # 2) 10 1
           [0; 1]%Q 3 [[0; 1; 0]; [1; 0; 1]]%Q (Arr2 []) H).
  simpl. lia.
Defined.

(** X6.  A one-dimensional migration context with two entries or more
    cannot be evaluated: reading its number of columns raises an IndexError,
    whatever the flat candidate and the workload. *)
Theorem flat_migration_context_raises_IndexError
  (L_epm L_cpm : list Q)
  (P_epm P_prime_epm C_epm P_cpm P_prime_cpm C_cpm : Q)
  (V_du V_cu : list Q) (alpha beta T : Q) (v b : list Q) (S_t : ndarray) :
  (2 <= length b)%nat ->
  calculate_energy_total L_epm L_cpm P_epm P_prime_epm C_epm
    P_cpm P_prime_cpm C_cpm V_du V_cu alpha beta T
    (Arr1 v) (Arr1 b) S_t = Raise IndexError.
Proof.
  intros Hb. unfold calculate_energy_total, migration_cpm.
  destruct (migration_epm_flat_ok V_du alpha beta v) as [m ->]. simpl.
  assert (E : (1 <? length b)%nat = true) by (apply Nat.ltb_lt; lia).
  rewrite E. reflexivity.
Qed.

Lemma flat_migration_context_raises_IndexError_witness :
  (2 <= length [0; 0]%Q)%nat /\
  script_energy (Arr1 [0; 1]%Q) (Arr1 [0; 0]%Q) (Arr2 []) = Raise IndexError.
Proof.
  split; [simpl; lia|].
  apply (flat_migration_context_raises_IndexError [50; 60]%Q [70; 80]%Q
           200 50 100 300 60 120 [5; 10]%Q [15; 20]%Q (1 # 2) 10 1).
  simpl. lia.
Defined.

(** X7.  The class-E volumes are not cut to the candidate: for a
    two-dimensional candidate of [c] columns and two rows or more, the
    class-E migration term is defined exactly when [c] and the number of
    entries of [V_du] broadcast (they are equal, or one of them is 1);
    otherwise evaluation raises a ValueError, whatever the context. *)
Theorem class_E_volumes_must_broadcast
  (L_epm L_cpm : list Q)
  (P_epm P_prime_epm C_epm P_cpm P_prime_cpm C_cpm : Q)
  (V_du V_cu : list Q) (alpha beta T : Q) (c : nat)
  (rows : list (list Q)) (B_t S_t : ndarray) :
  rectangular c rows -> (2 <= length rows)%nat ->
  (compatible c (length V_du) ->
   exists q, migration_epm V_du alpha beta (Arr2 rows) = Ok q) /\
  (~ compatible c (length V_du) ->
   calculate_energy_total L_epm L_cpm P_epm P_prime_epm C_epm
     P_cpm P_prime_cpm C_cpm V_du V_cu alpha beta T
     (Arr2 rows) B_t S_t = Raise ValueError).
Proof.
  intros Hrect Hlen.
  assert (Hbranch : (1 <? shape0 (Arr2 rows))%nat = true).
  { apply Nat.ltb_lt. simpl. lia. }
  destruct (transition_sum_rectangular c rows
              (map (fun x => alpha * x + beta)%Q V_du) Hrect Hlen)
    as [Hok Herr].
  rewrite length_map in Hok, Herr.
  unfold calculate_energy_total, migration_epm.
  change (normalize (Arr2 rows)) with (Arr2 rows). cbv zeta.
  rewrite Hbranch. split.
  - exact Hok.
  - intros H. rewrite (Herr H). reflexivity.
Qed.

Lemma class_E_volumes_must_broadcast_witness :
  rectangular 3 [[0; 1; 0]; [1; 0; 1]]%Q /\
  (2 <= length [[0; 1; 0]; [1; 0; 1]]%Q)%nat /\
  ~ compatible 3 (length [5; 10]%Q) /\
  script_energy (Arr2 [[0; 1; 0]; [1; 0; 1]]%Q) (Arr2 []) (Arr2 [])
  = Raise ValueError.
Proof.
  assert (H : rectangular 3 [[0; 1; 0]; [1; 0; 1]]%Q).
  { repeat constructor. }
  assert (Hc : ~ compatible 3 (length [5; 10]%Q)).
  { unfold compatible. simpl. lia. }
  split; [exact H|]. split; [simpl; lia|]. split; [exact Hc|].
  apply (proj2 (class_E_volumes_must_broadcast [50; 60]%Q [70; 80]%Q
                  200 50 100 300 60 120 [5; 10]%Q [15; 20]%Q (1 # 2) 10 1
                  3 [[0; 1; 0]; [1; 0; 1]]%Q (Arr2 []) (Arr2 []) H
                  ltac:(simpl; lia))).
  exact Hc.
Defined.


(** * Further properties of the search *)

Lemma wp_conj {A} (m : M A) t w Φ1 Φ2 Ψ1 Ψ2 :
  wp m t w Φ1 Ψ1 -> wp m t w Φ2 Ψ2 ->
  wp m t w (fun a w' => Φ1 a w' /\ Φ2 a w') (fun e w' => Ψ1 e w' /\ Ψ2 e w').
Proof. unfold wp. destruct (m t w) as [[a|e] w']; auto. Qed.

Lemma wp_weaken {A} (m : M A) t w (Φ Φ' : A -> world -> Prop)
  (Ψ Ψ' : exn -> world -> Prop) :
  wp m t w Φ Ψ -> (forall a w', Φ a w' -> Φ' a w') ->
  (forall e w', Ψ e w' -> Ψ' e w') -> wp m t w Φ' Ψ'.
Proof. unfold wp. destruct (m t w) as [[a|e] w']; auto. Qed.

Lemma wp_comprehension_at {A B} (f : A -> M B) (I : list B -> world -> Prop)
  l pre acc t w Φ Ψ :
  length acc = length pre -> I acc w ->
  (forall k x ys w, (pre ++ l) !! k = Some x -> length ys = k -> I ys w ->
     wp (f x) t w (fun y w' => I (ys ++ [y]) w') Ψ) ->
  (forall ys w', length ys = length l -> I (acc ++ ys) w' -> Φ ys w') ->
  wp (comprehension f l) t w Φ Ψ.
Proof.
  revert pre acc w Φ.
  induction l as [|x l IH]; intros pre acc w Φ Hlen H0 Hf Hend; simpl.
  - apply wp_ret. apply Hend; [reflexivity|]. rewrite app_nil_r. exact H0.
  - apply wp_bind.
    eapply wp_mono; [apply (Hf (length pre) x acc);
                     [apply list_lookup_middle; reflexivity|exact Hlen|exact H0]|].
    intros y w' H1. apply wp_bind.
    apply (IH (pre ++ [x]) (acc ++ [y])).
    + rewrite !length_app. simpl. lia.
    + exact H1.
    + intros k x' ys w'' Hk. apply Hf. rewrite <- app_assoc in Hk. exact Hk.
    + intros ys w'' Hys HI. apply wp_ret. apply Hend; [simpl; lia|].
      rewrite <- app_assoc in HI. exact HI.
Qed.

Lemma wp_comprehension_indexed {A B} (f : A -> M B)
  (I : list B -> world -> Prop) l t w Φ Ψ :
  I [] w ->
  (forall k x ys w, l !! k = Some x -> length ys = k -> I ys w ->
     wp (f x) t w (fun y w' => I (ys ++ [y]) w') Ψ) ->
  (forall ys w', length ys = length l -> I ys w' -> Φ ys w') ->
  wp (comprehension f l) t w Φ Ψ.
Proof.
  intros H0 Hf Hend.
  apply (wp_comprehension_at f I l [] []); auto.
Qed.

Lemma uniform_in lo hi u :
  (lo <= hi)%Q -> (0 <= u <= 1)%Q -> (lo <= lo + (hi - lo) * u <= hi)%Q.
Proof.
  intros Hb [Hu0 Hu1].
  assert (H0 : (0 <= (hi - lo) * u)%Q).
  { apply Qmult_le_0_compat; [|exact Hu0].
    unfold Qminus. rewrite <- Qle_minus_iff. exact Hb. }
  assert (H1 : ((hi - lo) * u <= (hi - lo) * 1)%Q).
  { rewrite !(Qmult_comm (hi - lo)). apply Qmult_le_compat_r; [exact Hu1|].
    unfold Qminus. rewrite <- Qle_minus_iff. exact Hb. }
  split; lra.
Qed.

Lemma wp_random_uniform_exact a b t w Φ Ψ :
  Φ (a + (b - a) * t (cursor w))%Q
    (World (heap w) (S (cursor w)) (stdout w) (figures w)) ->
  wp (random_uniform a b) t w Φ Ψ.
Proof. intros H. exact H. Qed.

Lemma extends_draw w :
  extends w (World (heap w) (S (cursor w)) (stdout w) (figures w)).
Proof. repeat split; simpl; auto. Qed.

Lemma wp_alloc_exact a t w Φ Ψ :
  Φ (length (heap w))
    (World (heap w ++ [a]) (cursor w) (stdout w) (figures w)) ->
  wp (alloc a) t w Φ Ψ.
Proof. intros H. exact H. Qed.

Lemma extends_alloc w a :
  extends w (World (heap w ++ [a]) (cursor w) (stdout w) (figures w)).
Proof. repeat split; simpl; auto. apply prefix_app_r. reflexivity. Qed.

Lemma extends_within_at bounds w w' l :
  extends w w' -> within_at bounds w l -> within_at bounds w' l.
Proof. intros H (a & Ha & Hin). exists a. eauto using extends_lookup. Qed.

Lemma unit_draws_sub t lo hi lo' hi' :
  (lo <= lo')%nat -> (hi' <= hi)%nat ->
  unit_draws t lo hi -> unit_draws t lo' hi'.
Proof. intros H1 H2 H k Hk. apply H. lia. Qed.

Section Initialisation.
Variable population_size : Z.
Variable bounds : list (Q * Q).
Local Abbreviation n := (length bounds).

Lemma wp_init_individual_exact t w Φ Ψ :
  (forall l w' xs, extends w w' -> cursor w' = (cursor w + n)%nat ->
     heap w' !! l = Some xs -> length xs = n ->
     (bounds_valid bounds -> unit_draws t (cursor w) (cursor w + n) ->
      within_bounds bounds xs) ->
     Φ l w') ->
  wp (init_individual bounds) t w Φ Ψ.
Proof.
  intros H. unfold init_individual, np_array. apply wp_bind.
  apply (wp_comprehension_indexed _ (fun ys w1 =>
           extends w w1 /\ cursor w1 = (cursor w + length ys)%nat /\
           forall d b y, bounds !! d = Some b -> ys !! d = Some y ->
             (fst b <= snd b)%Q -> (0 <= t (cursor w + d)%nat <= 1)%Q ->
             (fst b <= y <= snd b)%Q)).
  - split; [apply extends_refl|]. split; [simpl; lia|].
    intros d b y _ Hy. discriminate Hy.
  - intros k b ys w1 Hk Hlen (Hw1 & Hc & Hin).
    apply wp_random_uniform_exact. split; [|split].
    + eapply extends_trans; [exact Hw1|apply extends_draw].
    + simpl. rewrite length_app. simpl. lia.
    + intros d b' y Hb' Hy Hvalid Hu.
      destruct (decide (d < length ys)%nat) as [Hd|Hd].
      * rewrite lookup_app_l in Hy by exact Hd. eauto.
      * assert (Hd' : d = length ys).
        { apply lookup_lt_Some in Hy. rewrite length_app in Hy.
          simpl in Hy. lia. }
        subst d. rewrite lookup_app_r, Nat.sub_diag in Hy by lia.
        injection Hy as <-. rewrite Hlen, Hk in Hb'. injection Hb' as <-.
        rewrite Hc, Hlen. apply uniform_in; [exact Hvalid|].
        rewrite <- Hlen. exact Hu.
  - intros xs w1 Hlen (Hw1 & Hc & Hin).
    apply wp_alloc_exact. apply (H _ _ xs).
    + eapply extends_trans; [exact Hw1|apply extends_alloc].
    + simpl. rewrite Hc, Hlen. reflexivity.
    + simpl. apply list_lookup_middle. reflexivity.
    + exact Hlen.
    + intros Hvalid Hunit. split; [exact Hlen|].
      intros d lo hi v Hb Hv. apply (Hin d (lo, hi) v Hb Hv).
      * exact (Forall_lookup_1 _ _ _ _ Hvalid Hb).
      * apply Hunit. apply lookup_lt_Some in Hb. lia.
Qed.

Lemma wp_init_population_exact t w Φ Ψ :
  (forall population w', extends w w' ->
     cursor w' = (cursor w + n * Z.to_nat population_size)%nat ->
     length population = Z.to_nat population_size ->
     Forall (arr n w') population ->
     (bounds_valid bounds ->
      unit_draws t (cursor w) (cursor w + n * Z.to_nat population_size) ->
      Forall (within_at bounds w') population) ->
     Φ population w') ->
  wp (init_population population_size bounds) t w Φ Ψ.
Proof.
  intros H. unfold init_population.
  apply (wp_comprehension_indexed _ (fun ys w1 =>
           extends w w1 /\ cursor w1 = (cursor w + n * length ys)%nat /\
           Forall (arr n w1) ys /\
           (bounds_valid bounds ->
            unit_draws t (cursor w)
              (cursor w + n * Z.to_nat population_size) ->
            Forall (within_at bounds w1) ys))).
  - split; [apply extends_refl|]. split; [simpl; lia|].
    split; [constructor|]. intros _ _. constructor.
  - intros k x ys w1 Hk Hlen (Hw1 & Hc & Harr & Hin).
    unfold py_range in Hk. apply lookup_seq in Hk as [_ Hk].
    apply wp_init_individual_exact.
    intros l w2 xs Hw2 Hc2 Hl Hxs Hwithin.
    split; [eauto using extends_trans|]. split; [|split].
    + rewrite length_app. simpl. lia.
    + apply Forall_app. split.
      * eapply Forall_impl; [exact Harr|]. eauto using extends_arr.
      * repeat constructor. exists xs. auto.
    + intros Hvalid Hunit. apply Forall_app. split.
      * eapply Forall_impl; [exact (Hin Hvalid Hunit)|].
        eauto using extends_within_at.
      * repeat constructor. exists xs. split; [exact Hl|].
        apply Hwithin; [exact Hvalid|].
        eapply unit_draws_sub; [| |exact Hunit]; [lia|].
        rewrite Hc, Hlen.
        assert (n * S k <= n * Z.to_nat population_size)%nat
          by (apply Nat.mul_le_mono_l; lia).
        lia.
  - intros population w1 Hlen (Hw1 & Hc & Harr & Hin).
    unfold py_range in Hlen. rewrite length_seq in Hlen.
    apply H; auto. rewrite Hc, Hlen. reflexivity.
Qed.
End Initialisation.

Lemma min_from_le bv l :
  (min_from bv l <= bv)%Q /\ Forall (fun y => min_from bv l <= y)%Q l.
Proof.
  revert bv. induction l as [|y r IH]; intros bv; simpl.
  { split; [apply Qle_refl|constructor]. }
  destruct (IH (if Qltb y bv then y else bv)) as [H1 H2].
  destruct (Qltb y bv) eqn:E.
  - apply Qltb_lt in E. split; [|constructor; assumption].
    eapply Qle_trans; [exact H1|]. apply Qlt_le_weak, E.
  - apply Qltb_ge in E. split; [exact H1|]. constructor; [|exact H2].
    eapply Qle_trans; eassumption.
Qed.

Lemma py_min_le fitness m :
  py_min fitness = Ok m -> Forall (fun y => m <= y)%Q fitness.
Proof.
  destruct fitness as [|x r]; [discriminate|]. intros [= <-].
  destruct (min_from_le x r) as [H1 H2]. constructor; assumption.
Qed.

Lemma scored_functional eval w l e1 e2 :
  scored eval w l e1 -> scored eval w l e2 -> e1 = e2.
Proof. intros (a & Ha & H1) (a' & Ha' & H2). congruence. Qed.

Lemma descending_last_least l f :
  descending l -> last l = Some f -> Forall (fun x => f <= x)%Q l.
Proof.
  intros Hdesc Hlast. apply Forall_lookup_2. intros i x Hx.
  assert (Hi : (i < length l)%nat) by eauto using lookup_lt_Some.
  remember (length l - 1 - i)%nat as d eqn:Hd.
  revert i x Hx Hi Hd. induction d as [|d IH]; intros i x Hx Hi Hd.
  - rewrite last_lookup in Hlast.
    replace (pred (length l)) with i in Hlast by lia.
    rewrite Hx in Hlast. injection Hlast as <-. apply Qle_refl.
  - destruct (lookup_lt_is_Some_2 l (S i)) as [y Hy]; [lia|].
    assert (Hfy : (f <= y)%Q) by (apply (IH (S i)); [exact Hy|lia|lia]).
    destruct (Hdesc i x y Hx Hy) as [->|Hlt]; [exact Hfy|].
    eapply Qle_trans; [exact Hfy|]. apply Qlt_le_weak, Hlt.
Qed.

Lemma prefix_within_at bounds w w' l :
  heap w `prefix_of` heap w' -> within_at bounds w l -> within_at bounds w' l.
Proof.
  intros Hp (a & Ha & Hin). exists a. split; [|exact Hin].
  eapply prefix_lookup_Some; eassumption.
Qed.

Lemma projected_within_at bounds w l :
  projected bounds w l -> within_at bounds w l.
Proof. intros (x & a & Ha & _ & Hin & _). exists a. auto. Qed.

Section Refinement.
Variables (max_generations population_size : Z).
Variable bounds : list (Q * Q).
Variables (L_epm L_cpm : list Q).
Variables (P_epm P_prime_epm C_epm P_cpm P_prime_cpm C_cpm : Q).
Variables (V_du V_cu : list Q).
Variables (alpha beta T : Q).

Local Abbreviation n := (length bounds).
Local Abbreviation B_t := (np_zeros (length bounds) 1).
Local Abbreviation S_t := (np_ones (length bounds) 1).
Local Abbreviation eval :=
  (run_energy bounds L_epm L_cpm P_epm P_prime_epm C_epm
     P_cpm P_prime_cpm C_cpm V_du V_cu alpha beta T).
Local Abbreviation fails := (fun e (_ : world) => failure population_size e).
Local Abbreviation inv := (invariant population_size bounds eval).
Local Abbreviation empty_population :=
  (fun e (_ : world) => e = IndexError /\ (population_size <= 0)%Z).

Lemma wp_update_best_least st population fitness t w Φ Ψ :
  Forall2 (scored eval w) population fitness -> population <> [] ->
  (forall bf bs, Forall (fun e => bf <= e)%Q fitness ->
     (bs = best_solution st /\ bf = best_fitness st) \/ bs ∈ population ->
     Φ (bf, bs) w) ->
  wp (update_best st population fitness) t w Φ Ψ.
Proof.
  intros Hfit Hne H. unfold update_best.
  destruct (argmin_min fitness) as (i & m & Hi & Hm & Him).
  { intros ->. apply Forall2_nil_inv_r in Hfit. contradiction. }
  pose proof (py_min_le fitness m Hm) as Hleast.
  apply wp_bind, wp_lift. rewrite Hm.
  destruct (Qltb m (best_fitness st)) eqn:E.
  - apply wp_bind, wp_lift. rewrite Hi.
    destruct (lookup_lt_is_Some_2 population i) as [l Hl].
    { rewrite (Forall2_length _ _ _ Hfit). eauto using lookup_lt_Some. }
    apply wp_bind, (wp_getitem population i l); [exact Hl|].
    apply wp_ret. apply H; [exact Hleast|].
    right. eauto using list_elem_of_lookup_2.
  - apply wp_ret. apply H; [|left; auto].
    apply Qltb_ge in E. eapply Forall_impl; [exact Hleast|].
    intros e He. eapply Qle_trans; eassumption.
Qed.

Lemma least_of_fitness population fitness bf (w : world) :
  Forall2 (scored eval w) population fitness ->
  Forall (fun e => bf <= e)%Q fitness ->
  forall l e, l ∈ population -> scored eval w l e -> (bf <= e)%Q.
Proof.
  intros Hfit Hleast l e Hl He.
  apply list_elem_of_lookup in Hl as [i Hi].
  destruct (Forall2_lookup_l _ _ _ _ _ Hfit Hi) as (e' & He' & Hs).
  rewrite (scored_functional _ _ _ _ _ He Hs).
  exact (Forall_lookup_1 _ _ _ _ Hleast He').
Qed.

Lemma wp_generation_step_least w0 g st t w :
  inv w0 g st w ->
  wp (generation_step population_size bounds L_epm L_cpm
        P_epm P_prime_epm C_epm P_cpm P_prime_cpm C_cpm
        V_du V_cu alpha beta T B_t S_t st g) t w
     (fun st' w' =>
        heap w `prefix_of` heap w' /\ best_is_least eval st' w' /\
        (best_solution st' = best_solution st \/
         best_solution st' ∈ population st'))
     fails.
Proof.
  intros (_ & _ & _ & HP & Hlen & Hpop & Hbarr & _).
  unfold generation_step.
  apply wp_bind, wp_pollinate_all; [exact Hpop|exact Hbarr|exact Hlen|].
  intros pop1 w1 Hw1 Hlen1 Hclip.
  assert (Hpop1 : Forall (arr n w1) pop1).
  { eapply Forall_impl; [exact Hclip|]. apply clipped_arr. }
  apply wp_bind, wp_evaluate_all; [exact Hpop1|]. intros fitness Hfit.
  apply wp_bind, wp_update_best_least; [exact Hfit| |].
  { intros ->. simpl in Hlen1. lia. }
  intros bf bs Hleast Hbs. simpl.
  apply wp_bind, wp_print, wp_ret.
  split; [exact (proj1 Hw1)|]. split.
  - intros l e Hl He. exact (least_of_fitness pop1 fitness bf w1 Hfit Hleast l e Hl He).
  - simpl. destruct Hbs as [[-> _]|Hbs]; auto.
Qed.

Lemma wp_initial_state_least t w :
  wp (initial_state population_size bounds L_epm L_cpm
        P_epm P_prime_epm C_epm P_cpm P_prime_cpm C_cpm
        V_du V_cu alpha beta T) t w
     (fun r w' =>
        best_is_least eval r.2 w' /\
        best_solution r.2 ∈ population r.2 /\
        stdout w' = stdout w /\
        convergence r.2 = [best_fitness r.2] /\
        cursor w' = (cursor w + n * Z.to_nat population_size)%nat /\
        (bounds_valid bounds ->
         unit_draws t (cursor w) (cursor w + n * Z.to_nat population_size) ->
         Forall (within_at bounds w') (population r.2)))
     empty_population.
Proof.
  unfold initial_state.
  apply wp_bind, wp_init_population_exact.
  intros population w1 Hw1 Hc Hlen Hpop Hin.
  apply wp_bind, wp_lift.
  destruct population as [|p0 population]; simpl.
  { split; [reflexivity|]. simpl in Hlen. lia. }
  pose proof (Forall_inv Hpop) as (a0 & Ha0 & Hn0).
  apply wp_bind, (wp_deref p0 a0); [exact Ha0|]. rewrite Hn0.
  apply wp_bind, wp_evaluate_all; [exact Hpop|]. intros fitness Hfit.
  destruct (argmin_min fitness) as (i & m & Hi & Hm & Him).
  { intros ->. apply Forall2_nil_inv_r in Hfit. discriminate. }
  apply wp_bind, wp_lift. rewrite Hi.
  destruct (lookup_lt_is_Some_2 (p0 :: population) i) as [l Hl].
  { rewrite (Forall2_length _ _ _ Hfit). eauto using lookup_lt_Some. }
  apply wp_bind. eapply (wp_getitem _ i l); [exact Hl|].
  apply wp_bind, wp_lift. rewrite Hm. apply wp_ret. simpl.
  split; [|split; [|split; [|split; [|split]]]].
  - intros l' e Hl' He.
    exact (least_of_fitness _ fitness m w1 Hfit (py_min_le _ _ Hm) l' e Hl' He).
  - eauto using list_elem_of_lookup_2.
  - exact (proj1 (proj2 (proj2 Hw1))).
  - reflexivity.
  - exact Hc.
  - exact Hin.
Qed.
End Refinement.

Section BestRecord.
Variables (max_generations population_size : Z).
Variable bounds : list (Q * Q).
Variables (L_epm L_cpm : list Q).
Variables (P_epm P_prime_epm C_epm P_cpm P_prime_cpm C_cpm : Q).
Variables (V_du V_cu : list Q).
Variables (alpha beta T : Q).

Local Abbreviation n := (length bounds).
Local Abbreviation eval :=
  (run_energy bounds L_epm L_cpm P_epm P_prime_epm C_epm
     P_cpm P_prime_cpm C_cpm V_du V_cu alpha beta T).
Local Abbreviation fails := (fun e (_ : world) => failure population_size e).
Local Abbreviation inv := (invariant population_size bounds eval).
Local Abbreviation search' :=
  (search max_generations population_size bounds L_epm L_cpm
     P_epm P_prime_epm C_epm P_cpm P_prime_cpm C_cpm V_du V_cu alpha beta T).
Local Abbreviation fpa' :=
  (flower_pollination_algorithm max_generations population_size bounds
     L_epm L_cpm P_epm P_prime_epm C_epm P_cpm P_prime_cpm C_cpm
     V_du V_cu alpha beta T).

Lemma wp_search_least t w :
  wp search' t w
     (fun r w' =>
        inv w (Z.to_nat max_generations) r.2 w' /\
        best_is_least eval r.2 w' /\
        (bounds_valid bounds ->
         unit_draws t (cursor w) (cursor w + n * Z.to_nat population_size) ->
         within_at bounds w' (best_solution r.2)))
     fails.
Proof.
  unfold search. apply wp_bind.
  eapply wp_weaken;
    [apply (wp_conj _ _ _ _ _ _ _
              (wp_initial_state population_size bounds L_epm L_cpm
                 P_epm P_prime_epm C_epm P_cpm P_prime_cpm C_cpm
                 V_du V_cu alpha beta T t w)
              (wp_initial_state_least population_size bounds L_epm L_cpm
                 P_epm P_prime_epm C_epm P_cpm P_prime_cpm C_cpm
                 V_du V_cu alpha beta T t w))| |].
  - intros [[B S] st] w1
      ((HB & HS & Hinv) & (Hleast & Hin & _ & _ & _ & Hwithin)).
    simpl in *. subst B S.
    apply wp_bind, (wp_for_loop _ (fun k st w' =>
      inv w k st w' /\ best_is_least eval st w' /\
      (bounds_valid bounds ->
       unit_draws t (cursor w) (cursor w + n * Z.to_nat population_size) ->
       within_at bounds w' (best_solution st)))).
    + split; [exact Hinv|]. split; [exact Hleast|]. intros Hv Hu.
      exact (proj1 (Forall_forall _ _) (Hwithin Hv Hu) _ Hin).
    + intros k g st1 w2 Hg (Hinv1 & Hl1 & Hw1).
      unfold py_range in Hg. apply lookup_seq in Hg as [-> _]. simpl.
      eapply wp_weaken;
        [apply (wp_conj _ _ _ _ _ _ _
                  (wp_generation_step population_size bounds L_epm L_cpm
                     P_epm P_prime_epm C_epm P_cpm P_prime_cpm C_cpm
                     V_du V_cu alpha beta T w k st1 t w2 Hinv1)
                  (wp_generation_step_least population_size bounds
                     L_epm L_cpm P_epm P_prime_epm C_epm
                     P_cpm P_prime_cpm C_cpm V_du V_cu alpha beta T
                     w k st1 t w2 Hinv1))| |].
      * intros st2 w3 (Hinv2 & Hpre & Hl2 & Hbs).
        split; [exact Hinv2|]. split; [exact Hl2|]. intros Hv Hu.
        destruct Hbs as [E|Hin2].
        -- rewrite E. eapply prefix_within_at; [exact Hpre|auto].
        -- destruct Hinv2 as (_ & _ & _ & _ & _ & _ & _ & _ & _ & _ & _ & Hclip).
           apply projected_within_at, clipped_projected; [exact Hv|].
           apply (proj1 (Forall_forall _ _) (Hclip ltac:(lia)) _ Hin2).
      * intros e w' [H _]. exact H.
    + intros st1 w2 H. apply wp_ret. simpl.
      unfold py_range in H. rewrite length_seq in H. exact H.
  - intros e w' [H _]. exact H.
Qed.

Lemma wp_search_no_generation t w :
  (max_generations <= 0)%Z ->
  wp search' t w
     (fun r w' =>
        inv w 0%nat r.2 w' /\ best_is_least eval r.2 w' /\
        best_solution r.2 ∈ population r.2 /\
        stdout w' = stdout w /\
        convergence r.2 = [best_fitness r.2] /\
        cursor w' = (cursor w + n * Z.to_nat population_size)%nat)
     (fun e _ => e = IndexError /\ (population_size <= 0)%Z).
Proof.
  intros HG. unfold search, py_range. rewrite (Z2Nat.nonpos _ HG). simpl.
  apply wp_bind.
  eapply wp_weaken;
    [apply (wp_conj _ _ _ _ _ _ _
              (wp_initial_state population_size bounds L_epm L_cpm
                 P_epm P_prime_epm C_epm P_cpm P_prime_cpm C_cpm
                 V_du V_cu alpha beta T t w)
              (wp_initial_state_least population_size bounds L_epm L_cpm
                 P_epm P_prime_epm C_epm P_cpm P_prime_cpm C_cpm
                 V_du V_cu alpha beta T t w))| |].
  - intros [[B S] st] w1
      ((_ & _ & Hinv) & (Hleast & Hin & Hout & Hconv & Hc & _)).
    simpl in *. apply wp_bind, wp_ret, wp_ret. simpl. auto 10.
  - intros e w' [_ H]. exact H.
Qed.

Lemma flower_pollination_algorithm_inv t w v w' :
  fpa' t w = (Ok v, w') ->
  exists B S st w1,
    search' t w = (Ok (B, S, st), w1) /\
    v = [VRef (best_solution st); VFloat (best_fitness st)] /\
    w' = World (heap w1) (cursor w1) (stdout w1)
           (figures w1 ++ [convergence st]).
Proof.
  unfold flower_pollination_algorithm, mbind, M_bind.
  destruct (search' t w) as [[[[B S] st]|e] w1]; [|discriminate].
  intros [= <- <-]. exists B, S, st, w1. auto.
Qed.

Lemma flower_pollination_algorithm_of_search t w B S st w1 :
  search' t w = (Ok (B, S, st), w1) ->
  fpa' t w
  = (Ok [VRef (best_solution st); VFloat (best_fitness st)],
     World (heap w1) (cursor w1) (stdout w1)
       (figures w1 ++ [convergence st])).
Proof.
  intros E. unfold flower_pollination_algorithm, mbind, M_bind.
  rewrite E. reflexivity.
Qed.
End BestRecord.

(** X8.  With no individual ([population_size <= 0]) the call raises an
    IndexError at once: nothing has been drawn, allocated, printed or
    plotted when it does. *)
Theorem empty_population_raises_IndexError
  (max_generations population_size : Z) (bounds : list (Q * Q))
  (L_epm L_cpm : list Q)
  (P_epm P_prime_epm C_epm P_cpm P_prime_cpm C_cpm : Q)
  (V_du V_cu : list Q) (alpha beta T : Q) (t : tape) (w : world) :
  (population_size <= 0)%Z ->
  flower_pollination_algorithm max_generations population_size bounds
    L_epm L_cpm P_epm P_prime_epm C_epm P_cpm P_prime_cpm C_cpm
    V_du V_cu alpha beta T t w = (Raise IndexError, w).
Proof.
  intros HP.
  unfold flower_pollination_algorithm, search, initial_state,
    init_population, py_range.
  rewrite (Z2Nat.nonpos _ HP). reflexivity.
Qed.

Lemma empty_population_raises_IndexError_witness :
  (0 <= 0)%Z /\
  script_search 100 0 script_bounds tape_a fresh = (Raise IndexError, fresh).
Proof.
  split; [lia|].
  apply (empty_population_raises_IndexError 100 0 script_bounds). lia.
Defined.

(** X9.  With no generation to run ([max_generations <= 0]) and at least
    one individual, a single one included, the call returns normally: it
    draws one value per dimension and individual, prints nothing, plots a
    history of one entry, and returns an individual of the initial
    population together with a fitness that is the energy of that very
    individual, and that no individual of that population undercuts. *)
Theorem no_generation_returns_initial_best
  (max_generations population_size : Z) (bounds : list (Q * Q))
  (L_epm L_cpm : list Q)
  (P_epm P_prime_epm C_epm P_cpm P_prime_cpm C_cpm : Q)
  (V_du V_cu : list Q) (alpha beta T : Q) (t : tape) (w : world) :
  (1 <= population_size)%Z -> (max_generations <= 0)%Z ->
  exists B_t S_t st w1,
    search max_generations population_size bounds L_epm L_cpm
      P_epm P_prime_epm C_epm P_cpm P_prime_cpm C_cpm
      V_du V_cu alpha beta T t w = (Ok (B_t, S_t, st), w1) /\
    flower_pollination_algorithm max_generations population_size bounds
      L_epm L_cpm P_epm P_prime_epm C_epm P_cpm P_prime_cpm C_cpm
      V_du V_cu alpha beta T t w
    = (Ok [VRef (best_solution st); VFloat (best_fitness st)],
       World (heap w1) (cursor w1) (stdout w1)
         (figures w ++ [[best_fitness st]])) /\
    stdout w1 = stdout w /\
    cursor w1 = (cursor w + length bounds * Z.to_nat population_size)%nat /\
    length (population st) = Z.to_nat population_size /\
    best_solution st ∈ population st /\
    scored
      (run_energy bounds L_epm L_cpm P_epm P_prime_epm C_epm
         P_cpm P_prime_cpm C_cpm V_du V_cu alpha beta T)
      w1 (best_solution st) (best_fitness st) /\
    best_is_least
      (run_energy bounds L_epm L_cpm P_epm P_prime_epm C_epm
         P_cpm P_prime_cpm C_cpm V_du V_cu alpha beta T) st w1.
Proof.
  intros HP HG.
  destruct (search max_generations population_size bounds L_epm L_cpm
              P_epm P_prime_epm C_epm P_cpm P_prime_cpm C_cpm
              V_du V_cu alpha beta T t w) as [r w1] eqn:E.
  pose proof (wp_run _ _ _ _ _ _ _
    (wp_search_no_generation max_generations population_size bounds
       L_epm L_cpm P_epm P_prime_epm C_epm P_cpm P_prime_cpm C_cpm
       V_du V_cu alpha beta T t w HG) E) as H.
  destruct r as [[[B S] st]|e]; [|destruct H as [_ H]; lia].
  simpl in H. destruct H as (Hinv & Hleast & Hin & Hout & Hconv & Hc).
  destruct Hinv as (_ & _ & Hfig & _ & Hlen & _ & _ & Hscored & _).
  exists B, S, st, w1. split; [reflexivity|].
  split; [|auto 10].
  rewrite (flower_pollination_algorithm_of_search _ _ _ _ _ _ _ _ _ _ _ _ _
             _ _ _ _ _ _ _ _ _ E).
  rewrite Hconv, Hfig. reflexivity.
Qed.

Lemma no_generation_returns_initial_best_witness :
  (1 <= 1)%Z /\ (0 <= 0)%Z /\
  exists B_t S_t st w1,
    search 0 1 script_bounds [50; 60]%Q [70; 80]%Q 200 50 100 300 60 120
      [5; 10]%Q [15; 20]%Q (1 # 2) 10 1 tape_a fresh
    = (Ok (B_t, S_t, st), w1) /\
    script_search 0 1 script_bounds tape_a fresh
    = (Ok [VRef (best_solution st); VFloat (best_fitness st)],
       World (heap w1) (cursor w1) (stdout w1)
         (figures fresh ++ [[best_fitness st]])) /\
    stdout w1 = stdout fresh /\
    cursor w1 = (cursor fresh + length script_bounds * Z.to_nat 1)%nat /\
    length (population st) = Z.to_nat 1 /\
    best_solution st ∈ population st /\
    scored
      (run_energy script_bounds [50; 60]%Q [70; 80]%Q 200 50 100 300 60 120
         [5; 10]%Q [15; 20]%Q (1 # 2) 10 1)
      w1 (best_solution st) (best_fitness st) /\
    best_is_least
      (run_energy script_bounds [50; 60]%Q [70; 80]%Q 200 50 100 300 60 120
         [5; 10]%Q [15; 20]%Q (1 # 2) 10 1) st w1.
Proof.
  split; [lia|]. split; [lia|].
  apply (no_generation_returns_initial_best 0 1 script_bounds); lia.
Defined.

(** X10.  The search keeps the shape of its population: whenever the
    generation loop is left, the population still has [population_size]
    individuals, each an array with one entry per bound, and so has the
    best candidate. *)
Theorem population_keeps_its_shape
  (max_generations population_size : Z) (bounds : list (Q * Q))
  (L_epm L_cpm : list Q)
  (P_epm P_prime_epm C_epm P_cpm P_prime_cpm C_cpm : Q)
  (V_du V_cu : list Q) (alpha beta T : Q) (t : tape) (w : world)
  (B_t S_t : ndarray) (st : locals) (w' : world) :
  search max_generations population_size bounds L_epm L_cpm
    P_epm P_prime_epm C_epm P_cpm P_prime_cpm C_cpm
    V_du V_cu alpha beta T t w = (Ok (B_t, S_t, st), w') ->
  length (population st) = Z.to_nat population_size /\
  Forall (arr (length bounds) w') (population st) /\
  arr (length bounds) w' (best_solution st).
Proof.
  intros E. apply search_outcome in E as (_ & _ & Hinv).
  destruct Hinv as (_ & _ & _ & _ & Hlen & Hpop & Hbest & _). auto.
Qed.

Lemma population_keeps_its_shape_witness :
  exists B_t S_t st w',
    search 2 3 script_bounds [50; 60]%Q [70; 80]%Q 200 50 100 300 60 120
      [5; 10]%Q [15; 20]%Q (1 # 2) 10 1 tape_a fresh
    = (Ok (B_t, S_t, st), w') /\
    length (population st) = Z.to_nat 3 /\
    Forall (arr (length script_bounds) w') (population st) /\
    arr (length script_bounds) w' (best_solution st).
Proof.
  destruct (search 2 3 script_bounds [50; 60]%Q [70; 80]%Q 200 50 100 300 60
              120 [5; 10]%Q [15; 20]%Q (1 # 2) 10 1 tape_a fresh)
    as [[[[B_t S_t] st]|e] w'] eqn:E.
  - exists B_t, S_t, st, w'. split; [reflexivity|].
    exact (population_keeps_its_shape 2 3 script_bounds
             [50; 60]%Q [70; 80]%Q 200 50 100 300 60 120
             [5; 10]%Q [15; 20]%Q (1 # 2) 10 1 tape_a fresh B_t S_t st w' E).
  - exfalso. vm_compute in E. discriminate E.
Defined.

(** X11.  The best fitness is the least energy the search has met: when
    the generation loop is left, no individual of the population has an
    energy below it, and no entry of the convergence history is below it. *)
Theorem best_fitness_is_least
  (max_generations population_size : Z) (bounds : list (Q * Q))
  (L_epm L_cpm : list Q)
  (P_epm P_prime_epm C_epm P_cpm P_prime_cpm C_cpm : Q)
  (V_du V_cu : list Q) (alpha beta T : Q) (t : tape) (w : world)
  (B_t S_t : ndarray) (st : locals) (w' : world) :
  search max_generations population_size bounds L_epm L_cpm
    P_epm P_prime_epm C_epm P_cpm P_prime_cpm C_cpm
    V_du V_cu alpha beta T t w = (Ok (B_t, S_t, st), w') ->
  best_is_least
    (run_energy bounds L_epm L_cpm P_epm P_prime_epm C_epm
       P_cpm P_prime_cpm C_cpm V_du V_cu alpha beta T) st w' /\
  Forall (fun x => best_fitness st <= x)%Q (convergence st).
Proof.
  intros E.
  pose proof (wp_run _ _ _ _ _ _ _
    (wp_search_least max_generations population_size bounds
       L_epm L_cpm P_epm P_prime_epm C_epm P_cpm P_prime_cpm C_cpm
       V_du V_cu alpha beta T t w) E) as (Hinv & Hleast & _).
  split; [exact Hleast|]. simpl in Hinv.
  destruct Hinv as (_ & _ & _ & _ & _ & _ & _ & _ & _ & Hlast & Hdesc & _).
  exact (descending_last_least _ _ Hdesc Hlast).
Qed.

Lemma best_fitness_is_least_witness :
  exists B_t S_t st w',
    search 2 3 script_bounds [50; 60]%Q [70; 80]%Q 200 50 100 300 60 120
      [5; 10]%Q [15; 20]%Q (1 # 2) 10 1 tape_a fresh
    = (Ok (B_t, S_t, st), w') /\
    best_is_least
      (run_energy script_bounds [50; 60]%Q [70; 80]%Q 200 50 100 300 60 120
         [5; 10]%Q [15; 20]%Q (1 # 2) 10 1) st w' /\
    Forall (fun x => best_fitness st <= x)%Q (convergence st).
Proof.
  destruct (search 2 3 script_bounds [50; 60]%Q [70; 80]%Q 200 50 100 300 60
              120 [5; 10]%Q [15; 20]%Q (1 # 2) 10 1 tape_a fresh)
    as [[[[B_t S_t] st]|e] w'] eqn:E.
  - exists B_t, S_t, st, w'. split; [reflexivity|].
    exact (best_fitness_is_least 2 3 script_bounds
             [50; 60]%Q [70; 80]%Q 200 50 100 300 60 120
             [5; 10]%Q [15; 20]%Q (1 # 2) 10 1 tape_a fresh B_t S_t st w' E).
  - exfalso. vm_compute in E. discriminate E.
Defined.

(** X12.  The returned candidate respects the bounds: when every pair of
    bounds has [low <= high] and the draws that initialise the population
    (one per dimension and individual) lie between 0 and 1, as values of
    [random.random()] do, every dimension of the returned best candidate
    lies in its interval, whatever the later draws. *)
Theorem best_solution_within_bounds
  (max_generations population_size : Z) (bounds : list (Q * Q))
  (L_epm L_cpm : list Q)
  (P_epm P_prime_epm C_epm P_cpm P_prime_cpm C_cpm : Q)
  (V_du V_cu : list Q) (alpha beta T : Q) (t : tape) (w : world)
  (v : list pyval) (w' : world) :
  bounds_valid bounds ->
  unit_draws t (cursor w)
    (cursor w + length bounds * Z.to_nat population_size) ->
  flower_pollination_algorithm max_generations population_size bounds
    L_epm L_cpm P_epm P_prime_epm C_epm P_cpm P_prime_cpm C_cpm
    V_du V_cu alpha beta T t w = (Ok v, w') ->
  exists best fitness a,
    v = [VRef best; VFloat fitness] /\
    heap w' !! best = Some a /\
    within_bounds bounds a.
Proof.
  intros Hvalid Hunit E.
  apply flower_pollination_algorithm_inv in E
    as (B & S & st & w1 & E & -> & ->).
  pose proof (wp_run _ _ _ _ _ _ _
    (wp_search_least max_generations population_size bounds
       L_epm L_cpm P_epm P_prime_epm C_epm P_cpm P_prime_cpm C_cpm
       V_du V_cu alpha beta T t w) E) as (_ & _ & Hwithin).
  destruct (Hwithin Hvalid Hunit) as (a & Ha & Hin).
  exists (best_solution st), (best_fitness st), a. auto.
Qed.

Lemma tape_a_unit k : (0 <= tape_a k <= 1)%Q.
Proof.
  unfold tape_a, Qle. simpl.
  pose proof (Nat.mod_upper_bound (k * 7) 10). lia.
Qed.

Lemma best_solution_within_bounds_witness :
  bounds_valid script_bounds /\
  unit_draws tape_a (cursor fresh)
    (cursor fresh + length script_bounds * Z.to_nat 3) /\
  exists v w',
    script_search 2 3 script_bounds tape_a fresh = (Ok v, w') /\
    exists best fitness a,
      v = [VRef best; VFloat fitness] /\
      heap w' !! best = Some a /\
      within_bounds script_bounds a.
Proof.
  assert (Hvalid : bounds_valid script_bounds).
  { repeat constructor; vm_compute; congruence. }
  assert (Hunit : unit_draws tape_a (cursor fresh)
                    (cursor fresh + length script_bounds * Z.to_nat 3)).
  { intros k _. apply tape_a_unit. }
  split; [exact Hvalid|]. split; [exact Hunit|].
  destruct (script_search 2 3 script_bounds tape_a fresh)
    as [[v|e] w'] eqn:E.
  - exists v, w'. split; [reflexivity|].
    exact (best_solution_within_bounds 2 3 script_bounds
             [50; 60]%Q [70; 80]%Q 200 50 100 300 60 120
             [5; 10]%Q [15; 20]%Q (1 # 2) 10 1 tape_a fresh v w'
             Hvalid Hunit E).
  - exfalso. vm_compute in E. discriminate E.
Defined.
